(** * Data Vault: per-context navigation, dataset selection and listeners

    A shallow embedding of the request handlers of [data_vault.py]
    (class [DataVault]).  Session and dataset objects are shared and
    mutated in place by the handlers, so they live in one store that every
    handler threads through; a context holds references into that store.
    A handler is a computation over the store and the context dictionary
    [c] that either returns a value or raises one of the server's errors;
    whatever was mutated before a raise stays mutated. *)

From stdpp Require Import gmap strings list fin_maps pretty.

Open Scope Z_scope.

(** A path is the list of directory names from the root; the root itself is
    the path whose only segment is the empty string.  Context identifiers
    ([c.ID]) and stored numbers are opaque payloads for every handler
    below. *)
Abbreviation Path := (list string) (only parsing).
Definition root : list string := [EmptyString].
Abbreviation ContextID := N (only parsing).
Abbreviation Value := Z (only parsing).

(** ** Errors and signals *)

(** The exceptions the handlers raise ([errors.*] in the source) together
    with the ones of the dataset layer ([ParameterExistsError] is what a
    dataset that refuses a parameter name it already has raises).
    [KeyError] is Python's own, raised by [set.remove] on a missing
    element.  [StaleReference] has no Python counterpart: it is what
    dereferencing a reference that is not in the store gives in this
    model. *)
Inductive error : Type :=
  | NoDatasetError
  | ReadOnlyError
  | DirectoryNotFoundError (p : Path)
  | EmptyNameError
  | DirectoryExistsError (p : Path)
  | DatasetNotFoundError
  | BadDataError
  | BadVariablesError
  | BadParameterError
  | ParameterExistsError
  | KeyError
  | StaleReference.

Inductive error_kind : Type :=
  NotFound | AlreadyExists | InvalidArgument | ReadOnly | NoDatasetOpen.

(** Modelled from the spec: the [errors] module is not part of the sources;
    the kinds are those of the error-handling section. *)
Definition kind_of (e : error) : option error_kind :=
  match e with
  | NoDatasetError => Some NoDatasetOpen
  | ReadOnlyError => Some ReadOnly
  | DirectoryNotFoundError _ | DatasetNotFoundError | BadParameterError =>
      Some NotFound
  | EmptyNameError | BadDataError | BadVariablesError => Some InvalidArgument
  | DirectoryExistsError _ | ParameterExistsError => Some AlreadyExists
  | KeyError | StaleReference => None
  end.

(** The signals declared in [DataVault.__init__], each with the set of
    context keys it is sent to.  The tag signal is left out together with
    the tag handlers. *)
Inductive signal : Type :=
  | onNewDir (name : string) (to : gset N)
  | onNewDataset (name : string) (to : gset N)
  | onDataAvailable (to : gset N)
  | onNewParameter (to : gset N)
  | onCommentsAvailable (to : gset N).

Definition targets (s : signal) : gset N :=
  match s with
  | onNewDir _ to | onNewDataset _ to => to
  | onDataAvailable to | onNewParameter to | onCommentsAvailable to => to
  end.

(** ** Datasets *)

Module Dataset.

Record t : Type := mk {
  name : string;
  independents : list (string * string);
  dependents : list (string * string * string);
  rows : list (list Value);
  parameters : list (string * Value);
  comments : list (Z * string * string);
  listeners : gmap N nat;
  param_listeners : gset N;
  comment_listeners : gmap N nat
}.

Definition with_rows (r : list (list Value)) (d : t) : t :=
  mk (name d) (independents d) (dependents d) r (parameters d) (comments d)
     (listeners d) (param_listeners d) (comment_listeners d).
Definition with_parameters (p : list (string * Value)) (d : t) : t :=
  mk (name d) (independents d) (dependents d) (rows d) p (comments d)
     (listeners d) (param_listeners d) (comment_listeners d).
Definition with_comments (cs : list (Z * string * string)) (d : t) : t :=
  mk (name d) (independents d) (dependents d) (rows d) (parameters d) cs
     (listeners d) (param_listeners d) (comment_listeners d).
Definition with_listeners (l : gmap N nat) (d : t) : t :=
  mk (name d) (independents d) (dependents d) (rows d) (parameters d)
     (comments d) l (param_listeners d) (comment_listeners d).
Definition with_param_listeners (l : gset N) (d : t) : t :=
  mk (name d) (independents d) (dependents d) (rows d) (parameters d)
     (comments d) (listeners d) l (comment_listeners d).
Definition with_comment_listeners (l : gmap N nat) (d : t) : t :=
  mk (name d) (independents d) (dependents d) (rows d) (parameters d)
     (comments d) (listeners d) (param_listeners d) l.

(** Modelled from the spec: the [Dataset] class is not part of the
    sources.  A fresh dataset has the declared schema, no rows, no
    parameters, no comments and no listeners. *)
Definition create (nm : string) (ind : list (string * string))
    (dep : list (string * string * string)) : t :=
  mk nm ind dep [] [] [] ∅ ∅ ∅.

Definition arity (d : t) : nat :=
  (length (independents d) + length (dependents d))%nat.

(** Modelled from the spec: [keepStreaming] is not part of the sources.
    The caller's entry in the data-listener structure is inserted or
    updated at the given offset. *)
Definition keepStreaming (key : N) (pos : nat) (d : t) : t :=
  with_listeners (<[key := pos]> (listeners d)) d.

(** Modelled from the spec: [keepStreamingComments] is not part of the
    sources; as [keepStreaming], on the comment-listener structure. *)
Definition keepStreamingComments (key : N) (pos : nat) (d : t) : t :=
  with_comment_listeners (<[key := pos]> (comment_listeners d)) d.

(** The contexts an append that brings the dataset to [len] rows signals:
    those in the data-listener structure whose cursor is behind [len]. *)
Definition behind (len : nat) (l : gmap N nat) : gset N :=
  dom (filter (λ kv, (kv.2 < len)%nat) l).

(** Modelled from the spec: [addData] is not part of the sources.  A row
    of the wrong arity fails the whole batch; otherwise every row is
    appended and "data available" goes to the listeners whose cursor is
    behind the new length. *)
Definition addData (data : list (list Value)) (d : t)
    : error + (t * list signal) :=
  if forallb (λ r, Nat.eqb (length r) (arity d)) data then
    let rows' := rows d ++ data in
    inr (with_rows rows' d,
         [onDataAvailable (behind (length rows') (listeners d))])
  else inl BadDataError.

Definition window {A} (limit : option nat) (pos : nat) (l : list A)
    : list A :=
  match limit with
  | None => drop pos l
  | Some n => take n (drop pos l)
  end.

(** Modelled from the spec: [getData] is not part of the sources.  The
    rows from [pos] on, at most [limit] of them, and the offset to resume
    from. *)
Definition getData (limit : option nat) (pos : nat) (d : t)
    : list (list Value) * nat :=
  let data := window limit pos (rows d) in (data, (pos + length data)%nat).

(** Modelled from the spec: [getComments] is not part of the sources;
    same contract as [getData] on the comment log. *)
Definition getComments (limit : option nat) (pos : nat) (d : t)
    : list (Z * string * string) * nat :=
  let cs := window limit pos (comments d) in (cs, (pos + length cs)%nat).

(** Modelled from the spec: parameter names are unique, and what the
    dataset does with a name it already has is left open between failing
    with an already-exists error and silently overwriting.  The choice is
    an argument of everything that adds parameters, so that nothing
    proved below depends on it. *)
Inductive collision : Type := FailAlreadyExists | SilentlyOverwrite.

(** One entry.  A new name is appended; a name already present is refused
    or has its value replaced where it stands. *)
Definition put_parameter (how : collision) (ps : list (string * Value))
    (kv : string * Value) : error + list (string * Value) :=
  if bool_decide (kv.1 ∈ ps.*1) then
    match how with
    | FailAlreadyExists => inl ParameterExistsError
    | SilentlyOverwrite =>
        inr ((λ e : string * Value,
                if String.eqb e.1 kv.1 then (e.1, kv.2) else e) <$> ps)
    end
  else inr (ps ++ [kv]).

Fixpoint put_parameters (how : collision) (ps : list (string * Value))
    (batch : list (string * Value)) : error + list (string * Value) :=
  match batch with
  | [] => inr ps
  | kv :: rest =>
      match put_parameter how ps kv with
      | inl e => inl e
      | inr ps' => put_parameters how ps' rest
      end
  end.

(** Modelled from the spec: [addParameters] is not part of the sources.
    The entries are put in order; when all are accepted, "new parameter"
    goes once to every context in the parameter-listener set and that set
    is cleared.  A refused entry fails the whole batch. *)
Definition addParameters (how : collision)
    (params : list (string * Value)) (d : t) : error + (t * list signal) :=
  match put_parameters how (parameters d) params with
  | inl e => inl e
  | inr ps =>
      inr (with_param_listeners ∅ (with_parameters ps d),
           [onNewParameter (param_listeners d)])
  end.

(** Modelled from the spec: [addParameter] is not part of the sources;
    the one-entry form of [addParameters]. *)
Definition addParameter (how : collision) (nm : string) (v : Value) (d : t)
    : error + (t * list signal) :=
  addParameters how [(nm, v)] d.

Definition lower_ascii (a : Ascii.ascii) : Ascii.ascii :=
  let n := Ascii.nat_of_ascii a in
  if (Nat.leb 65 n && Nat.leb n 90)%bool then Ascii.ascii_of_nat (n + 32)
  else a.

Fixpoint lower (s : string) : string :=
  match s with
  | EmptyString => EmptyString
  | String a s' => String (lower_ascii a) (lower s')
  end.

(** Modelled from the spec: [getParameter] is not part of the sources.
    Exact match when case-sensitive, a scan that ignores case otherwise;
    an absent name is a not-found error. *)
Definition getParameter (nm : string) (case_sensitive : bool) (d : t)
    : error + Value :=
  let same (kv : string * Value) :=
    if case_sensitive then String.eqb kv.1 nm
    else String.eqb (lower kv.1) (lower nm) in
  match List.find same (parameters d) with
  | Some kv => inr kv.2
  | None => inl BadParameterError
  end.

(** Modelled from the spec: [addComment] is not part of the sources.
    The entry is stamped with the current time, here an argument, and
    "comments available" goes to every context in the comment-listener
    structure. *)
Definition addComment (now : Z) (user comment : string) (d : t)
    : t * list signal :=
  (with_comments (comments d ++ [(now, user, comment)]) d,
   [onCommentsAvailable (dom (comment_listeners d))]).

End Dataset.

(** ** Sessions *)

(** A dataset is named by a string or by its 1-based number ([name=['s',
    'w']] in the [open] setting). *)
Inductive name_or_index : Type :=
  | ByName (s : string)
  | ByIndex (n : Z).

Module Session.

Record t : Type := mk {
  path : Path;
  datasets : list Dataset.t;   (* in creation order *)
  listeners : gset N
}.

Definition with_listeners (l : gset N) (s : t) : t :=
  mk (path s) (datasets s) l.
Definition with_datasets (ds : list Dataset.t) (s : t) : t :=
  mk (path s) ds (listeners s).

Definition create (p : Path) : t := mk p [] ∅.

(** Modelled from the spec: the format of a dataset name is not part of
    the sources; the title is prefixed with the dataset's number in the
    session. *)
Definition dataset_name (num : nat) (title : string) : string :=
  pretty num +:+ " - " +:+ title.

Definition well_formed (ind : list (string * string))
    (dep : list (string * string * string)) : bool :=
  forallb (λ i, negb (String.eqb i.1 EmptyString)) ind
  && forallb (λ d, negb (String.eqb d.1.1 EmptyString)) dep.

(** Modelled from the spec: [newDataset] is not part of the sources.
    The next number of the session is allocated, the dataset is built and
    registered, and "new dataset" goes to the session's listeners.  The
    result is the position of the new dataset in the session. *)
Definition newDataset (title : string) (ind : list (string * string))
    (dep : list (string * string * string)) (s : t)
    : error + (t * list signal * nat) :=
  if well_formed ind dep then
    let nm := dataset_name (S (length (datasets s))) title in
    inr (with_datasets (datasets s ++ [Dataset.create nm ind dep]) s,
         [onNewDataset nm (listeners s)],
         length (datasets s))
  else inl BadVariablesError.

Fixpoint index_of (nm : string) (ds : list Dataset.t) : option nat :=
  match ds with
  | [] => None
  | d :: ds' =>
      if String.eqb (Dataset.name d) nm then Some 0%nat
      else S <$> index_of nm ds'
  end.

(** Modelled from the spec: [openDataset] is not part of the sources.
    An existing dataset is resolved by exact name or by its 1-based
    position in creation order; anything else is a not-found error. *)
Definition openDataset (n : name_or_index) (s : t) : error + nat :=
  let found :=
    match n with
    | ByName nm => index_of nm (datasets s)
    | ByIndex i =>
        if (1 <=? i) && (i <=? Z.of_nat (length (datasets s)))
        then Some (Z.to_nat (i - 1)) else None
    end in
  match found with
  | Some i => inr i
  | None => inl DatasetNotFoundError
  end.

End Session.

(** ** Contexts *)

(** A reference to a dataset object: the session that owns it and its
    position among that session's datasets.  Datasets are never removed
    from a session, so a position keeps naming the same object. *)
Abbreviation DatasetRef := (Path * nat)%type (only parsing).

Module Context.

(** The keys [new] and [open] write into the context dictionary, always
    the five of them together. *)
Record selection : Type := select {
  dataset : string;
  datasetObj : DatasetRef;
  filepos : nat;
  commentpos : nat;
  writing : bool
}.

(** The context dictionary [c] after [initContext].  [session] is the
    reference [c['session']]: the store holds one session object per
    path, so the object is named by the path it is stored under.
    [selected] is [None] when the key ['dataset'] is not in [c]. *)
Record t : Type := mk {
  ID : N;
  path : Path;
  session : Path;
  selected : option selection
}.

Definition with_filepos (n : nat) (o : selection) : selection :=
  select (dataset o) (datasetObj o) n (commentpos o) (writing o).
Definition with_commentpos (n : nat) (o : selection) : selection :=
  select (dataset o) (datasetObj o) (filepos o) n (writing o).
Definition with_selected (o : option selection) (c : t) : t :=
  mk (ID c) (path c) (session c) o.

End Context.

(** ** The world a handler runs in *)

Record World : Type := mkWorld {
  session_store : gmap (list string) Session.t;
  outbox : list signal;        (* signals sent so far, latest first *)
  c : Context.t
}.

Definition M (A : Type) : Type := World → World * (error + A).

Definition ret {A} (a : A) : M A := λ w, (w, inr a).
Definition raise {A} (e : error) : M A := λ w, (w, inl e).
Definition bind {A B} (m : M A) (k : A → M B) : M B :=
  λ w, match m w with
       | (w', inl e) => (w', inl e)
       | (w', inr a) => k a w'
       end.

Declare Scope vault_scope.
Delimit Scope vault_scope with vault.
Notation "x <- m ;; k" := (bind m (λ x, k))
  (at level 100, m at next level, right associativity) : vault_scope.
Notation "m ;; k" := (bind m (λ _, k))
  (at level 100, right associativity) : vault_scope.
Open Scope vault_scope.

Definition lift {A} (r : error + A) : M A :=
  match r with inl e => raise e | inr a => ret a end.

Definition context : M Context.t := λ w, (w, inr (c w)).
Definition set_context (c' : Context.t) : M unit :=
  λ w, (mkWorld (session_store w) (outbox w) c', inr ()).
Definition send (sigs : list signal) : M unit :=
  λ w, (mkWorld (session_store w) (sigs ++ outbox w) (c w), inr ()).

Fixpoint forM_ {A} (l : list A) (f : A → M unit) : M unit :=
  match l with
  | [] => ret ()
  | x :: l' => f x ;; forM_ l' f
  end.

(** Reading and writing a session object through a reference. *)
Definition session_at (p : Path) : M Session.t :=
  λ w, match session_store w !! p with
       | Some s => (w, inr s)
       | None => (w, inl StaleReference)
       end.
Definition set_session (p : Path) (s : Session.t) : M unit :=
  λ w, (mkWorld (<[p := s]> (session_store w)) (outbox w) (c w), inr ()).

(** Reading and writing a dataset object through a reference. *)
Definition dataset_at (r : DatasetRef) : M Dataset.t :=
  s <- session_at r.1 ;;
  match Session.datasets s !! r.2 with
  | Some d => ret d
  | None => raise StaleReference
  end.
Definition set_dataset (r : DatasetRef) (d : Dataset.t) : M unit :=
  s <- session_at r.1 ;;
  set_session r.1 (Session.with_datasets (<[r.2 := d]> (Session.datasets s)) s).

(** ** The session store *)

Module SessionStore.

(** Modelled from the spec: the [SessionStore] class is not part of the
    sources.  [exists] tells whether a session has already been created
    for the path, without creating it. *)
Definition exists_ (path : Path) : M bool :=
  λ w, (w, inr (bool_decide (is_Some (session_store w !! path)))).

(** The proper, non-empty prefixes of a path, shortest first. *)
Definition ancestors (path : Path) : list Path :=
  (λ n, take n path) <$> seq 1 (length path - 1).

Definition parent (path : Path) : Path := take (length path - 1) path.

(** One session is created, unless it is there already, and the
    listeners of its parent session are told about the new directory. *)
Definition make (path : Path) : M unit :=
  ex <- exists_ path ;;
  if (ex : bool) then ret ()
  else
    λ w, let sigs :=
           match session_store w !! parent path with
           | Some s => [onNewDir (default EmptyString (last path))
                                 (Session.listeners s)]
           | None => []
           end in
         (mkWorld (<[path := Session.create path]> (session_store w))
                  (sigs ++ outbox w) (c w), inr ()).

(** Modelled from the spec: [get] returns the session for the path,
    creating it and all its missing ancestors on demand, and never
    fails.  The result is the reference to the session object. *)
Definition get (path : Path) : M Path :=
  ex <- exists_ path ;;
  if (ex : bool) then ret path
  else forM_ (ancestors path ++ [path]) make ;; ret path.

(** Modelled from the spec: [get_all] is a snapshot of all the sessions
    created so far, here as references. *)
Definition get_all : M (list Path) :=
  λ w, (w, inr (map_to_list (session_store w)).*1).

End SessionStore.

(** ** Listener containers *)

(** [expireContext] uses its listener containers through [key in ls] and
    [ls.remove(key)] only, whatever their type. *)
Class Listeners (L : Type) : Type := {
  contains : N → L → bool;
  remove : N → L → L
}.

#[export] Instance set_listeners : Listeners (gset N) := {|
  contains key ls := bool_decide (key ∈ ls);
  remove key ls := ls ∖ {[key]}
|}.

(** Modelled from the spec: the data and comment listener structures map a
    context to its last delivered offset. *)
#[export] Instance offset_listeners : Listeners (gmap N nat) := {|
  contains key ls := bool_decide (is_Some (ls !! key));
  remove key ls := delete key ls
|}.

(** ** The handlers of [DataVault] *)

Definition contextKey (cx : Context.t) : N := Context.ID cx.

Definition listeners_add (session : Path) (key : N) : M unit :=
  s <- session_at session ;;
  set_session session
    (Session.with_listeners (Session.listeners s ∪ {[key]}) s).

(** [set.remove] raises [KeyError] when the element is missing. *)
Definition listeners_remove (session : Path) (key : N) : M unit :=
  s <- session_at session ;;
  if contains key (Session.listeners s) then
    set_session session
      (Session.with_listeners (remove key (Session.listeners s)) s)
  else raise KeyError.

Definition initServer : M unit :=
  _root <- SessionStore.get root ;; ret ().

Definition initContext (id : N) : M unit :=
  session <- SessionStore.get root ;;
  set_context (Context.mk id root session None) ;;
  cx <- context ;;
  listeners_add (Context.session cx) (contextKey cx).

Definition removeFromList {L} `{Listeners L} (key : N) (ls : L) : L :=
  if contains key ls then remove key ls else ls.

(** The three [removeFromList] calls of the inner loop, on one dataset. *)
Definition expire_dataset (key : N) (d : Dataset.t) : Dataset.t :=
  let d1 := Dataset.with_listeners
              (removeFromList key (Dataset.listeners d)) d in
  let d2 := Dataset.with_param_listeners
              (removeFromList key (Dataset.param_listeners d1)) d1 in
  Dataset.with_comment_listeners
    (removeFromList key (Dataset.comment_listeners d2)) d2.

(** The body of the outer loop, on one session: its own listener set,
    then every dataset in [session.datasets.values()]. *)
Definition expire_session (key : N) (s : Session.t) : Session.t :=
  let s1 := Session.with_listeners
              (removeFromList key (Session.listeners s)) s in
  Session.with_datasets (expire_dataset key <$> Session.datasets s1) s1.

Definition expireContext : M unit :=
  cx <- context ;;
  let key := contextKey cx in
  all <- SessionStore.get_all ;;
  forM_ all (λ session,
    s <- session_at session ;;
    set_session session (expire_session key s)).

Definition getSession : M Path :=
  cx <- context ;; ret (Context.session cx).

(** [c['filepos']], [c['writing']] and the like: a [KeyError] when the
    keys are not in the dictionary. *)
Definition selection : M Context.selection :=
  cx <- context ;;
  match Context.selected cx with
  | Some o => ret o
  | None => raise KeyError
  end.

Definition set_selection (o : Context.selection) : M unit :=
  cx <- context ;; set_context (Context.with_selected (Some o) cx).

Definition getDataset : M DatasetRef :=
  cx <- context ;;
  match Context.selected cx with
  | None => raise NoDatasetError
  | Some o => ret (Context.datasetObj o)
  end.

Definition update_dataset (r : DatasetRef) (f : Dataset.t → Dataset.t)
    : M unit :=
  d <- dataset_at r ;; set_dataset r (f d).

(** *** cd *)

Inductive cd_arg : Type :=
  | CdStr (s : string)
  | CdList (l : list string)
  | CdNum (n : Z).

(** [temp[:-n]] for a positive [n]. *)
Definition drop_last (n : Z) (temp : Path) : Path :=
  take (Z.to_nat (Z.of_nat (length temp) - n)) temp.

Definition pop (n : Z) (temp : Path) : Path :=
  if 0 <? n then
    let temp' := drop_last n temp in
    if bool_decide (length temp' = 0%nat) then root else temp'
  else temp.

(** One turn of the loop body up to the existence test. *)
Definition enter (temp : Path) (segment : string) : Path :=
  if String.eqb segment EmptyString then root else temp ++ [segment].

Fixpoint walk (create : bool) (path : list string) (temp : Path) : M Path :=
  match path with
  | [] => ret temp
  | segment :: rest =>
      let temp := enter temp segment in
      ex <- SessionStore.exists_ temp ;;
      if negb ex && negb create then raise (DirectoryNotFoundError temp)
      else _session <- SessionStore.get temp ;; walk create rest temp
  end.

Definition segments (a : cd_arg) : list string :=
  match a with
  | CdStr s => [s]
  | CdList l => l
  | CdNum _ => []
  end.

Definition cd (path : option cd_arg) (create : bool) : M Path :=
  match path with
  | None => cx <- context ;; ret (Context.path cx)
  | Some arg =>
      cx <- context ;;
      temp <- match arg with
              | CdNum n => ret (pop n (Context.path cx))
              | _ => walk create (segments arg) (Context.path cx)
              end ;;
      if bool_decide (Context.path cx ≠ temp) then
        let key := contextKey cx in
        listeners_remove (Context.session cx) key ;;
        session <- SessionStore.get temp ;;
        listeners_add session key ;;
        set_context (Context.mk (Context.ID cx) temp session
                                (Context.selected cx)) ;;
        cx' <- context ;; ret (Context.path cx')
      else ret (Context.path cx)
  end.

(** *** mkdir *)

Definition mkdir (name : string) : M Path :=
  if String.eqb name EmptyString then raise EmptyNameError
  else
    cx <- context ;;
    let path := Context.path cx ++ [name] in
    ex <- SessionStore.exists_ path ;;
    if (ex : bool) then raise (DirectoryExistsError path)
    else _sess <- SessionStore.get path ;; ret path.

(** *** new and open *)

Definition new (name : string) (independents : list (string * string))
    (dependents : list (string * string * string)) : M (Path * string) :=
  session <- getSession ;;
  s <- session_at session ;;
  r <- lift (Session.newDataset (if String.eqb name EmptyString then "untitled"
                                 else name) independents dependents s) ;;
  set_session session r.1.1 ;;
  send r.1.2 ;;
  let dataset := (session, r.2) in
  d <- dataset_at dataset ;;
  cx <- context ;;
  set_context
    (Context.with_selected
       (Some (Context.select (Dataset.name d) dataset 0 0 true)) cx) ;;
  cx <- context ;;
  o <- selection ;;
  ret (Context.path cx, Context.dataset o).

Definition open (name : name_or_index) : M (Path * string) :=
  session <- getSession ;;
  s <- session_at session ;;
  i <- lift (Session.openDataset name s) ;;
  let dataset := (session, i) in
  d <- dataset_at dataset ;;
  cx <- context ;;
  set_context
    (Context.with_selected
       (Some (Context.select (Dataset.name d) dataset 0 0 false)) cx) ;;
  cx <- context ;;
  let key := contextKey cx in
  update_dataset dataset (Dataset.keepStreaming key 0) ;;
  update_dataset dataset (Dataset.keepStreamingComments key 0) ;;
  o <- selection ;;
  ret (Context.path cx, Context.dataset o).

(** *** Data, parameters and comments *)

(** [data] is one row ([*v]) or several rows ([*2v]). *)
Inductive data_arg : Type :=
  | OneRow (r : list Value)
  | ManyRows (rs : list (list Value)).

Definition rows_of (data : data_arg) : list (list Value) :=
  match data with
  | OneRow r => [r]
  | ManyRows rs => rs
  end.

Definition add (data : data_arg) : M unit :=
  dataset <- getDataset ;;
  o <- selection ;;
  if negb (Context.writing o) then raise ReadOnlyError
  else
    d <- dataset_at dataset ;;
    r <- lift (Dataset.addData (rows_of data) d) ;;
    set_dataset dataset r.1 ;;
    send r.2.

Definition get (limit : option nat) (startOver : bool)
    : M (list (list Value)) :=
  dataset <- getDataset ;;
  o <- selection ;;
  set_selection
    (Context.with_filepos (if startOver then 0%nat else Context.filepos o) o) ;;
  o <- selection ;;
  d <- dataset_at dataset ;;
  let r := Dataset.getData limit (Context.filepos o) d in
  set_selection (Context.with_filepos r.2 o) ;;
  cx <- context ;;
  let key := contextKey cx in
  o <- selection ;;
  update_dataset dataset (Dataset.keepStreaming key (Context.filepos o)) ;;
  ret r.1.

Definition variables
    : M (list (string * string) * list (string * string * string)) :=
  ds <- getDataset ;;
  d <- dataset_at ds ;;
  ret (Dataset.independents d, Dataset.dependents d).

Definition listen_for_parameters (key : N) (d : Dataset.t) : Dataset.t :=
  Dataset.with_param_listeners (Dataset.param_listeners d ∪ {[key]}) d.

Definition parameters : M (list string) :=
  dataset <- getDataset ;;
  cx <- context ;;
  let key := contextKey cx in
  update_dataset dataset (listen_for_parameters key) ;;
  d <- dataset_at dataset ;;
  ret ((Dataset.parameters d).*1).

(** [how] is the dataset layer's answer to a name it already has. *)
Definition add_parameter (how : Dataset.collision) (name : string)
    (data : Value) : M unit :=
  dataset <- getDataset ;;
  d <- dataset_at dataset ;;
  r <- lift (Dataset.addParameter how name data d) ;;
  set_dataset dataset r.1 ;;
  send r.2.

Definition add_parameters (how : Dataset.collision)
    (params : list (string * Value)) : M unit :=
  dataset <- getDataset ;;
  d <- dataset_at dataset ;;
  r <- lift (Dataset.addParameters how params d) ;;
  set_dataset dataset r.1 ;;
  send r.2.

Definition get_name : M string :=
  dataset <- getDataset ;;
  d <- dataset_at dataset ;;
  ret (Dataset.name d).

Definition get_parameter (name : string) (case_sensitive : bool) : M Value :=
  dataset <- getDataset ;;
  d <- dataset_at dataset ;;
  lift (Dataset.getParameter name case_sensitive d).

Fixpoint collect (d : Dataset.t) (names : list string)
    : M (list (string * Value)) :=
  match names with
  | [] => ret []
  | name :: rest =>
      v <- lift (Dataset.getParameter name true d) ;;
      vs <- collect d rest ;;
      ret ((name, v) :: vs)
  end.

(** The result is [None] when the dataset has no parameters. *)
Definition get_parameters : M (option (list (string * Value))) :=
  dataset <- getDataset ;;
  d <- dataset_at dataset ;;
  let names := (Dataset.parameters d).*1 in
  params <- collect d names ;;
  cx <- context ;;
  let key := contextKey cx in
  update_dataset dataset (listen_for_parameters key) ;;
  if bool_decide (length params ≠ 0%nat) then ret (Some params)
  else ret None.

(** [now] is the time the dataset layer stamps the comment with. *)
Definition add_comment (now : Z) (comment user : string) : M unit :=
  dataset <- getDataset ;;
  d <- dataset_at dataset ;;
  let r := Dataset.addComment now user comment d in
  set_dataset dataset r.1 ;;
  send r.2.

Definition get_comments (limit : option nat) (startOver : bool)
    : M (list (Z * string * string)) :=
  dataset <- getDataset ;;
  o <- selection ;;
  set_selection
    (Context.with_commentpos
       (if startOver then 0%nat else Context.commentpos o) o) ;;
  o <- selection ;;
  d <- dataset_at dataset ;;
  let r := Dataset.getComments limit (Context.commentpos o) d in
  set_selection (Context.with_commentpos r.2 o) ;;
  cx <- context ;;
  let key := contextKey cx in
  o <- selection ;;
  update_dataset dataset
    (Dataset.keepStreamingComments key (Context.commentpos o)) ;;
  ret r.1.

(** ** Observations on a world *)

Definition exists_in (w : World) (p : Path) : Prop :=
  is_Some (session_store w !! p).

(** The listener set of the session at a path; no session, no listener. *)
Definition listeners_at (w : World) (p : Path) : gset N :=
  match session_store w !! p with
  | Some s => Session.listeners s
  | None => ∅
  end.

(** What [initContext] sets up: the context's session reference is the
    session of its path, that session is in the store and, of all the
    sessions in the store, the context's key is in the listener set of that
    one only. *)
Definition subscribed (w : World) : Prop :=
  Context.session (c w) = Context.path (c w) ∧
  exists_in w (Context.session (c w)) ∧
  ∀ p, contextKey (c w) ∈ listeners_at w p ↔ p = Context.session (c w).

(** [extends w w']: the context is the same, every session of [w] is in
    [w'] as it was, and a session of [w'] that is not in [w] is fresh. *)
Definition extends (w w' : World) : Prop :=
  c w' = c w ∧
  (∀ q s, session_store w !! q = Some s →
          session_store w' !! q = Some s) ∧
  (∀ q s, session_store w !! q = None → session_store w' !! q = Some s →
          s = Session.create q).

(** [same_sessions w w']: the same paths have sessions, with the same
    listener sets. *)
Definition same_sessions (w w' : World) : Prop :=
  (∀ p, listeners_at w' p = listeners_at w p) ∧
  (∀ p, exists_in w' p ↔ exists_in w p).

(** The working path after the whole sequence. *)
Definition resolve (temp : Path) (path : list string) : Path :=
  foldl enter temp path.

(** The working paths after each segment, in order. *)
Fixpoint intermediates (temp : Path) (path : list string) : list Path :=
  match path with
  | [] => []
  | segment :: rest =>
      enter temp segment :: intermediates (enter temp segment) rest
  end.

(** The path [cd] resolves its argument to, before anything is changed. *)
Definition resolution (arg : cd_arg) (create : bool) (cx : Context.t)
    : M Path :=
  match arg with
  | CdNum n => ret (pop n (Context.path cx))
  | _ => walk create (segments arg) (Context.path cx)
  end.

(** The body of [if c['path'] != temp]. *)
Definition migrate (cx : Context.t) (temp : Path) : M Path :=
  let key := contextKey cx in
  listeners_remove (Context.session cx) key ;;
  session <- SessionStore.get temp ;;
  listeners_add session key ;;
  set_context (Context.mk (Context.ID cx) temp session
                          (Context.selected cx)) ;;
  cx' <- context ;; ret (Context.path cx').

(** The dataset object a reference names, if it is in the store. *)
Definition dataset_in (w : World) (r : DatasetRef) : option Dataset.t :=
  match session_store w !! r.1 with
  | Some s => Session.datasets s !! r.2
  | None => None
  end.

(** The same store and signals, seen from another context. *)
Definition with_context (cx : Context.t) (w : World) : World :=
  mkWorld (session_store w) (outbox w) cx.

(** The key is in none of the listener containers of the dataset. *)
Definition unregistered (key : N) (d : Dataset.t) : Prop :=
  (Dataset.listeners d !! key = None) ∧
  (key ∉ Dataset.param_listeners d) ∧
  (Dataset.comment_listeners d !! key = None).

(** Small scenarios for the examples at the end: the server started and
    one context initialised. *)
Definition empty_world : World :=
  mkWorld ∅ [] (Context.mk 0 [] [] None).

Definition run {A} (m : M A) (w : World) : World := (m w).1.

Definition started (id : N) : World :=
  run (initContext id) (run initServer empty_world).

(** Context 7 has moved to a fresh directory [a/b]. *)
Definition in_a_b : World :=
  run (cd (Some (CdList ["a"; "b"])) true) (started 7).

(** Context 7 has gone through [a], back to the root and on to [b]. *)
Definition through_root : World :=
  run (cd (Some (CdList ["a"; EmptyString; "b"])) true) (started 7).

(** Context 7 has made the directory [x] under the root. *)
Definition made_x : World := run (mkdir "x") (started 7).

(** Context 7 has created the dataset "scan" in the root, and a second
    context, 8, has been initialised. *)
Definition scan_created : World :=
  run (new "scan" [("time", "s")] [("signal", "ch1", "V")]) (started 7).

Definition second_context : World :=
  run (initContext 8) scan_created.

(** Context 8 has opened the dataset by its number. *)
Definition scan_opened : World :=
  run (open (ByIndex 1)) second_context.


(** Context 7 has created "scan" and added two rows and a parameter;
    context 8 has been initialised and has opened the dataset. *)
Definition scan_filled : World :=
  run (add_parameter Dataset.FailAlreadyExists "gain" 3)
      (run (add (ManyRows [[0; 1]; [2; 3]])) scan_created).

Definition filled_opened : World :=
  run (open (ByIndex 1)) (run (initContext 8) scan_filled).

(** * DG535: channel selection and command strings

    The pure part of [dg535.py]: the channel table, [findString],
    [makeChannelCommand] and the channel selection built on them. *)

Module DG535.

(** [s.split()] for a string whose only white space is the space
    character: the maximal runs of other characters, in order. *)
Fixpoint split_from (word : string) (s : string) : list string :=
  match s with
  | EmptyString => if String.eqb word EmptyString then [] else [word]
  | String a s' =>
      if Ascii.eqb a Ascii.Space then
        if String.eqb word EmptyString then split_from EmptyString s'
        else word :: split_from EmptyString s'
      else split_from (word +:+ String a EmptyString) s'
  end.

Definition split (s : string) : list string := split_from EmptyString s.

(** [ls.index(key)]: the position of the first occurrence, if any. *)
Fixpoint index (key : string) (ls : list string) : option nat :=
  match ls with
  | [] => None
  | x :: ls' => if String.eqb x key then Some 0%nat else S <$> index key ls'
  end.

Definition CHANNELS : list string := split "T T0 A B AB C D CD ALL".

Definition ALL : Z :=
  match index "ALL" CHANNELS with
  | Some i => Z.of_nat i
  | None => 0
  end.

(** A channel is given by name or by number; [KNone] is Python's
    [None]. *)
Inductive key : Type :=
  | KNone
  | KStr (s : string)
  | KInt (n : Z).

(** [ValueError] is what [list.index] raises for a missing element,
    [OutOfRange] is [Exception('Out of range.')]. *)
Inductive failure : Type := ValueError | OutOfRange.

Definition findString (k : key) (ls : list string) : failure + Z :=
  match k with
  | KNone => inr 0
  | KStr s =>
      match index s ls with
      | Some i => inr (Z.of_nat i)
      | None => inl ValueError
      end
  | KInt n =>
      if (n <? 0) || (n >=? Z.of_nat (length ls)) then inl OutOfRange
      else inr n
  end.

Definition all_channels : list Z := [2; 3; 4; 5; 6; 7].

(** ['%s %d%s' % (cmd, c, params)] for each channel, joined by [';']. *)
Definition makeChannelCommand (cmd : string) (channel : Z) (params : string)
    (all_channels : list Z) : string :=
  let params :=
    if negb (String.eqb params EmptyString) then "," +:+ params
    else params in
  let channel := if channel =? ALL then all_channels else [channel] in
  let cmds := (λ c : Z, cmd +:+ " " +:+ pretty c +:+ params) <$> channel in
  String.concat ";" cmds.

(** The context dictionary of this server. *)
Record context : Type := mk { channel : Z; anchor : Z }.

Definition initContext : context := mk 2 1.

Definition select_channel (chan : key) (c : context)
    : failure + (context * Z) :=
  match findString chan CHANNELS with
  | inl e => inl e
  | inr ch => inr (mk ch (anchor c), ch)
  end.

End DG535.

(** * Properties *)

(** ** Creating sessions only ever adds fresh, empty sessions *)

Lemma extends_refl w : extends w w.
Proof.
  split; [done|]. split; [done|]. intros q s Hn Hs. congruence.
Qed.

Lemma extends_trans w1 w2 w3 :
  extends w1 w2 → extends w2 w3 → extends w1 w3.
Proof.
  intros (Hc1 & Hk1 & Hf1) (Hc2 & Hk2 & Hf2).
  split; [congruence|]. split; [naive_solver|].
  intros q s Hn Hs.
  destruct (session_store w2 !! q) as [s2|] eqn:E2.
  - rewrite (Hk2 _ _ E2) in Hs. injection Hs as <-. eauto.
  - eauto.
Qed.

Lemma extends_exists w w' p : extends w w' → exists_in w p → exists_in w' p.
Proof. intros (_ & Hk & _) [s Hs]. exists s. auto. Qed.

Lemma extends_listeners_at w w' p :
  extends w w' → listeners_at w' p = listeners_at w p.
Proof.
  intros (_ & Hk & Hf). unfold listeners_at.
  destruct (session_store w !! p) as [s|] eqn:E.
  - by rewrite (Hk _ _ E).
  - destruct (session_store w' !! p) as [s'|] eqn:E'; [|done].
    by rewrite (Hf _ _ E E').
Qed.

Lemma exists_spec p w :
  SessionStore.exists_ p w = (w, inr (bool_decide (exists_in w p))).
Proof. done. Qed.

Lemma make_spec p w :
  ∃ w', SessionStore.make p w = (w', inr ()) ∧
        extends w w' ∧ exists_in w' p.
Proof.
  unfold SessionStore.make, bind. rewrite exists_spec.
  case_bool_decide as Hex.
  - exists w. split; [done|]. split; [apply extends_refl|done].
  - eexists. split; [reflexivity|].
    assert (session_store w !! p = None) as Hn.
    { destruct (session_store w !! p) eqn:E; [|done].
      exfalso. apply Hex. by exists t. }
    split; [|by (unfold exists_in; simpl; rewrite lookup_insert_eq)].
    split; [done|]. split; simpl.
    + intros q s Hs. rewrite lookup_insert_ne; [done|congruence].
    + intros q s Hq. destruct (decide (p = q)) as [->|Hne].
      * rewrite lookup_insert_eq. congruence.
      * rewrite lookup_insert_ne; [congruence|done].
Qed.

Lemma forM_make_spec l w :
  ∃ w', forM_ l SessionStore.make w = (w', inr ()) ∧ extends w w' ∧
        ∀ q, q ∈ l → exists_in w' q.
Proof.
  revert w. induction l as [|p l IH]; intros w; simpl.
  - exists w. split; [done|]. split; [apply extends_refl|].
    intros q Hq. by apply elem_of_nil in Hq.
  - unfold bind. destruct (make_spec p w) as (w1 & -> & He1 & Hp).
    destruct (IH w1) as (w2 & -> & He2 & Hl).
    exists w2. split; [done|]. split; [by eapply extends_trans|].
    intros q [->|Hq]%elem_of_cons; [by eapply extends_exists|auto].
Qed.

Lemma get_spec p w :
  ∃ w', SessionStore.get p w = (w', inr p) ∧
        extends w w' ∧ exists_in w' p ∧
        (exists_in w p → w' = w).
Proof.
  unfold SessionStore.get, bind. rewrite exists_spec.
  case_bool_decide as Hex.
  - exists w. split; [done|]. split; [apply extends_refl|done].
  - destruct (forM_make_spec (SessionStore.ancestors p ++ [p]) w)
      as (w' & -> & He & Hl).
    exists w'. split; [done|]. split; [done|]. split; [|done].
    apply Hl. apply elem_of_app. right. by apply list_elem_of_singleton.
Qed.

(** ** Resolving a segment sequence *)

Lemma walk_create path temp w :
  ∃ w', walk true path temp w = (w', inr (resolve temp path)) ∧
        extends w w' ∧
        ∀ q, q ∈ intermediates temp path → exists_in w' q.
Proof.
  revert temp w. induction path as [|seg rest IH]; intros temp w; simpl.
  - exists w. split; [done|]. split; [apply extends_refl|].
    intros q Hq. by apply elem_of_nil in Hq.
  - unfold bind at 1. rewrite exists_spec. rewrite andb_false_r.
    unfold bind at 1.
    destruct (get_spec (enter temp seg) w) as (w1 & -> & He1 & Hx & _).
    destruct (IH (enter temp seg) w1) as (w2 & -> & He2 & Hl).
    exists w2. split; [done|]. split; [by eapply extends_trans|].
    intros q [->|Hq]%elem_of_cons; [by eapply extends_exists|auto].
Qed.

Lemma walk_no_create path temp w :
  (walk false path temp w = (w, inr (resolve temp path)) ∧
   ∀ q, q ∈ intermediates temp path → exists_in w q) ∨
  (∃ q, walk false path temp w = (w, inl (DirectoryNotFoundError q)) ∧
        q ∈ intermediates temp path ∧ ¬ exists_in w q).
Proof.
  revert temp. induction path as [|seg rest IH]; intros temp; simpl.
  - left. split; [done|]. intros q Hq. by apply elem_of_nil in Hq.
  - unfold bind. rewrite exists_spec.
    case_bool_decide as Hex; simpl.
    + destruct (get_spec (enter temp seg) w) as (w1 & -> & _ & _ & Hsame).
      rewrite (Hsame Hex).
      destruct (IH (enter temp seg)) as [[-> Hl]|(q & -> & Hq & Hn)].
      * left. split; [done|].
        intros q [->|Hq]%elem_of_cons; auto.
      * right. exists q. split; [done|]. split; [|done].
        apply elem_of_cons. by right.
    + right. exists (enter temp seg). split; [done|]. split; [|done].
      apply elem_of_cons. by left.
Qed.

(** ** The two halves of [cd] *)

Lemma cd_unfold arg create w :
  cd (Some arg) create w =
  match resolution arg create (c w) w with
  | (w1, inl e) => (w1, inl e)
  | (w1, inr temp) =>
      if bool_decide (Context.path (c w) ≠ temp) then migrate (c w) temp w1
      else (w1, inr (Context.path (c w)))
  end.
Proof.
  unfold cd, resolution. unfold bind at 1. unfold context at 1.
  unfold bind at 1.
  destruct arg; cbv beta iota;
    try (match goal with |- context [walk ?b ?l ?t w] =>
           destruct (walk b l t w) as [w1 [e|temp]]
         end; [done|]);
    unfold ret; by case_bool_decide.
Qed.

Lemma listeners_at_insert w ob cx p s q :
  listeners_at (mkWorld (<[p := s]> (session_store w)) ob cx) q =
  if decide (p = q) then Session.listeners s else listeners_at w q.
Proof.
  unfold listeners_at; simpl. rewrite lookup_insert.
  by destruct (decide (p = q)).
Qed.

Lemma listeners_remove_spec session key w :
  listeners_remove session key w =
  match session_store w !! session with
  | None => (w, inl StaleReference)
  | Some s =>
      if decide (key ∈ Session.listeners s) then
        (mkWorld (<[session := Session.with_listeners
                                 (Session.listeners s ∖ {[key]}) s]>
                    (session_store w)) (outbox w) (c w), inr ())
      else (w, inl KeyError)
  end.
Proof.
  unfold listeners_remove, bind, session_at.
  destruct (session_store w !! session) as [s|]; [|done]. simpl.
  destruct (decide (key ∈ Session.listeners s)).
  - by rewrite bool_decide_eq_true_2.
  - by rewrite bool_decide_eq_false_2.
Qed.

Lemma listeners_add_spec session key w :
  listeners_add session key w =
  match session_store w !! session with
  | None => (w, inl StaleReference)
  | Some s =>
      (mkWorld (<[session := Session.with_listeners
                               (Session.listeners s ∪ {[key]}) s]>
                  (session_store w)) (outbox w) (c w), inr ())
  end.
Proof.
  unfold listeners_add, bind, session_at.
  by destruct (session_store w !! session).
Qed.

Lemma migrate_spec cx temp w :
  let key := contextKey cx in
  let old := Context.session cx in
  match session_store w !! old with
  | None => migrate cx temp w = (w, inl StaleReference)
  | Some s =>
      if decide (key ∈ Session.listeners s) then
        ∃ w', migrate cx temp w = (w', inr temp) ∧
              c w' = Context.mk (Context.ID cx) temp temp
                                (Context.selected cx) ∧
              listeners_at w' temp = listeners_at w temp ∪ {[key]} ∧
              (old ≠ temp →
               listeners_at w' old = listeners_at w old ∖ {[key]}) ∧
              (∀ p, p ≠ old → p ≠ temp →
                    listeners_at w' p = listeners_at w p) ∧
              (∀ p, exists_in w p → exists_in w' p) ∧
              exists_in w' temp
      else migrate cx temp w = (w, inl KeyError)
  end.
Proof.
  intros key old.
  unfold migrate. fold key. fold old.
  destruct (session_store w !! old) as [s|] eqn:Hold.
  2: { unfold bind at 1. by rewrite listeners_remove_spec, Hold. }
  destruct (decide (key ∈ Session.listeners s)) as [Hin|Hin].
  2: { unfold bind at 1. rewrite listeners_remove_spec, Hold.
       by rewrite decide_False. }
  unfold bind at 1. rewrite listeners_remove_spec, Hold.
  rewrite decide_True by done.
  set (w1 := mkWorld _ _ _).
  unfold bind at 1.
  destruct (get_spec temp w1) as (w2 & -> & He & Hx & _).
  unfold bind at 1. rewrite listeners_add_spec.
  destruct Hx as [s2 Hs2]. rewrite Hs2.
  unfold bind, set_context, context, ret. simpl.
  eexists. split; [reflexivity|]. split; [done|].
  assert (∀ p, listeners_at w2 p =
               if decide (old = p) then Session.listeners s ∖ {[key]}
               else listeners_at w p) as Hw2.
  { intros p. rewrite (extends_listeners_at _ _ _ He).
    subst w1. by rewrite listeners_at_insert. }
  assert (listeners_at w2 temp = Session.listeners s2) as Ht.
  { unfold listeners_at. by rewrite Hs2. }
  assert (listeners_at w old = Session.listeners s) as Ho.
  { unfold listeners_at. by rewrite Hold. }
  split; [|split; [|split; [|split]]].
  - rewrite listeners_at_insert. rewrite decide_True by done. simpl.
    rewrite <- Ht, Hw2. destruct (decide (old = temp)) as [<-|_]; [|done].
    rewrite Ho. apply set_eq. intros x.
    rewrite !elem_of_union, elem_of_difference, elem_of_singleton.
    destruct (decide (x = key)); tauto.
  - intros Hne. rewrite listeners_at_insert.
    rewrite decide_False by done. rewrite Hw2.
    rewrite decide_True by done. by rewrite Ho.
  - intros p Hp1 Hp2. rewrite listeners_at_insert.
    rewrite decide_False by done. rewrite Hw2.
    by rewrite decide_False by done.
  - intros p Hp. unfold exists_in; simpl.
    assert (exists_in w2 p) as [sp Hsp].
    { eapply extends_exists; [exact He|]. subst w1. unfold exists_in; simpl.
      rewrite lookup_insert. destruct (decide (old = p)); [by eexists|done]. }
    rewrite lookup_insert. destruct (decide (temp = p)); by eexists.
  - unfold exists_in; simpl. rewrite lookup_insert_eq. by eexists.
Qed.

Lemma migrate_error cx temp w w' e :
  migrate cx temp w = (w', inl e) →
  w' = w ∧ (e = KeyError ∨ e = StaleReference).
Proof.
  intros Hm. pose proof (migrate_spec cx temp w) as Hs. simpl in Hs.
  destruct (session_store w !! Context.session cx) as [s|].
  - destruct (decide (contextKey cx ∈ Session.listeners s)).
    + destruct Hs as (w2 & Hs & _). congruence.
    + rewrite Hs in Hm. injection Hm as <- <-. auto.
  - rewrite Hs in Hm. injection Hm as <- <-. auto.
Qed.

Lemma migrate_exists cx temp w w' r :
  migrate cx temp w = (w', r) → ∀ p, exists_in w p → exists_in w' p.
Proof.
  intros Hm. pose proof (migrate_spec cx temp w) as Hs. simpl in Hs.
  destruct (session_store w !! Context.session cx) as [s|].
  - destruct (decide (contextKey cx ∈ Session.listeners s)).
    + destruct Hs as (w2 & Hs & _ & _ & _ & _ & Hx & _).
      rewrite Hs in Hm. by injection Hm as <- <-.
    + rewrite Hs in Hm. by injection Hm as <- <-.
  - rewrite Hs in Hm. by injection Hm as <- <-.
Qed.

Lemma resolution_cases arg create w :
  (∃ w1, resolution arg create (c w) w =
           (w1, inr (match arg with
                     | CdNum n => pop n (Context.path (c w))
                     | _ => resolve (Context.path (c w)) (segments arg)
                     end)) ∧
         extends w w1 ∧ (create = false → w1 = w) ∧
         ∀ q, q ∈ intermediates (Context.path (c w)) (segments arg) →
              exists_in w1 q) ∨
  (∃ q, create = false ∧
        resolution arg create (c w) w = (w, inl (DirectoryNotFoundError q)) ∧
        q ∈ intermediates (Context.path (c w)) (segments arg) ∧
        ¬ exists_in w q).
Proof.
  assert (∀ l,
    (∃ w1, walk create l (Context.path (c w)) w =
             (w1, inr (resolve (Context.path (c w)) l)) ∧
           extends w w1 ∧ (create = false → w1 = w) ∧
           ∀ q, q ∈ intermediates (Context.path (c w)) l →
                exists_in w1 q) ∨
    (∃ q, create = false ∧
          walk create l (Context.path (c w)) w =
            (w, inl (DirectoryNotFoundError q)) ∧
          q ∈ intermediates (Context.path (c w)) l ∧
          ¬ exists_in w q)) as Hw.
  { intros l. destruct create.
    - left. destruct (walk_create l (Context.path (c w)) w)
        as (w1 & Hw1 & He & Hl).
      exists w1. split; [done|]. split; [done|]. split; done.
    - destruct (walk_no_create l (Context.path (c w)) w)
        as [[Hw1 Hl]|(q & Hq & Hin & Hn)].
      + left. exists w. split; [done|]. split; [apply extends_refl|].
        split; done.
      + right. by exists q. }
  destruct arg as [s|l|n]; [apply (Hw [s])|apply (Hw l)|].
  left. exists w. split; [done|]. split; [apply extends_refl|].
  split; [done|]. intros q Hq. by apply elem_of_nil in Hq.
Qed.

Lemma subscribed_extends w w' : extends w w' → subscribed w → subscribed w'.
Proof.
  intros He (Hp & Hx & Hl). pose proof He as (Hc & _).
  unfold subscribed. rewrite Hc. split; [done|].
  split; [by eapply extends_exists|].
  intros p. rewrite (extends_listeners_at _ _ _ He). apply Hl.
Qed.

(** ** What [initServer] and [initContext] establish *)

Lemma initContext_subscribed id w :
  (∀ p, id ∉ listeners_at w p) → subscribed (run (initContext id) w).
Proof.
  intros Hfresh. unfold run, initContext. unfold bind at 1.
  destruct (get_spec root w) as (w1 & -> & He & [s Hs] & _).
  unfold bind, set_context, context. simpl.
  rewrite listeners_add_spec. simpl. rewrite Hs. simpl.
  split; [done|]. split.
  - unfold exists_in; simpl. rewrite lookup_insert_eq. by eexists.
  - intros p. simpl. rewrite listeners_at_insert.
    destruct (decide (root = p)) as [<-|Hne]; simpl.
    + split; [done|]. intros _. apply elem_of_union. right.
      by apply elem_of_singleton.
    + rewrite (extends_listeners_at _ _ _ He). split; [|congruence].
      intros Hin. by apply Hfresh in Hin.
Qed.

Lemma started_subscribed id : subscribed (started id).
Proof.
  unfold started. apply initContext_subscribed. intros p.
  unfold run, initServer, bind.
  destruct (get_spec root empty_world) as (w1 & -> & He & _). simpl.
  rewrite (extends_listeners_at _ _ _ He). unfold listeners_at. simpl.
  rewrite lookup_empty. apply not_elem_of_empty.
Qed.

(** ** Claims about [cd] *)

(** What a [cd] that resolved its argument to [temp] does to a subscribed
    context: nothing when [temp] is the current path, the migration
    otherwise. *)
Lemma cd_resolved arg create w w1 temp :
  subscribed w →
  resolution arg create (c w) w = (w1, inr temp) →
  extends w w1 →
  let key := contextKey (c w) in
  let old := Context.session (c w) in
  ∃ w', cd (Some arg) create w = (w', inr temp) ∧
        subscribed w' ∧
        Context.path (c w') = temp ∧
        (temp ≠ Context.path (c w) →
           Context.session (c w') = temp ∧
           listeners_at w' temp = listeners_at w temp ∪ {[key]} ∧
           listeners_at w' old = listeners_at w old ∖ {[key]} ∧
           ∀ p, p ≠ old → p ≠ temp →
                listeners_at w' p = listeners_at w p) ∧
        (temp = Context.path (c w) →
           c w' = c w ∧ ∀ p, listeners_at w' p = listeners_at w p).
Proof.
  intros Hsub Hres He key old. rewrite cd_unfold, Hres.
  pose proof (subscribed_extends _ _ He Hsub) as Hsub1.
  pose proof He as (Hc & _).
  case_bool_decide as Hne.
  - pose proof (migrate_spec (c w) temp w1) as Hm. simpl in Hm.
    destruct Hsub1 as (Hp1 & [s Hs] & Hl1). rewrite Hc in Hp1, Hs, Hl1.
    fold old in Hs, Hp1, Hl1, Hm. fold key in Hl1, Hm.
    rewrite Hs in Hm.
    assert (key ∈ Session.listeners s) as Hin.
    { specialize (Hl1 old). unfold listeners_at in Hl1. rewrite Hs in Hl1.
      by apply Hl1. }
    rewrite decide_True in Hm by done.
    destruct Hm as (w2 & Hm & Hc2 & Ht & Ho & Hoth & _ & Hx).
    assert (old ≠ temp) as Hot.
    { intros Heq. apply Hne. by rewrite <- Hp1. }
    specialize (Ho Hot).
    rewrite (extends_listeners_at _ _ _ He) in Ht.
    rewrite (extends_listeners_at _ _ _ He) in Ho.
    exists w2. split; [done|]. split.
    + unfold subscribed. rewrite Hc2. simpl. split; [done|]. split; [done|].
      intros p. fold key. destruct (decide (p = temp)) as [->|Hpt].
      * rewrite Ht. split; [done|]. intros _. apply elem_of_union. right.
        by apply elem_of_singleton.
      * split; [|done]. intros Hin'. exfalso.
        destruct (decide (p = old)) as [->|Hpo].
        -- rewrite Ho in Hin'. apply elem_of_difference in Hin' as [_ Hk].
           apply Hk. by apply elem_of_singleton.
        -- rewrite (Hoth p Hpo Hpt) in Hin'. by apply Hl1 in Hin'.
    + rewrite Hc2. simpl. split; [done|]. split.
      * intros _. split; [done|]. split; [done|]. split; [done|].
        intros p Hpo Hpt. rewrite (Hoth p Hpo Hpt).
        apply (extends_listeners_at _ _ _ He).
      * intros Heq. by destruct Hne.
  - exists w1. split; [by rewrite Hne|]. split; [done|].
    split; [by rewrite Hc|]. split; [done|]. intros _. split; [done|].
    intros p. apply (extends_listeners_at _ _ _ He).
Qed.

Lemma cd_subscribed path create w :
  subscribed w → subscribed (run (cd path create) w).
Proof.
  intros Hsub. unfold run. destruct path as [arg|]; [|done].
  destruct (resolution_cases arg create w)
    as [(w1 & Hres & He & _)|(q & _ & Hres & _)].
  - destruct (cd_resolved _ _ _ _ _ Hsub Hres He) as (w' & -> & Hs & _).
    done.
  - rewrite cd_unfold, Hres. done.
Qed.

(** C1.  For a context set up by [initContext], [cd] goes where its
    argument resolves to: it returns that path, unless a path on the way
    is missing and the create flag is off, the one case in which it fails
    and changes nothing.  Whatever the outcome the context stays
    subscribed to exactly the session recorded in it.  When the path
    returned differs from the current one, the context's path and session
    become that path, its key is added to the listener set of the new
    session and removed from the listener set of the old one, and no
    other listener set changes.  When it is the current path, the context
    and every listener set are as before. *)
Theorem cd_listener_migration path create w w' r :
  subscribed w →
  cd path create w = (w', r) →
  let key := contextKey (c w) in
  let old := Context.session (c w) in
  let here := Context.path (c w) in
  let walked := match path with Some arg => segments arg | None => [] end in
  let target := match path with
                | None => here
                | Some (CdNum n) => pop n here
                | Some arg => resolve here (segments arg)
                end in
  subscribed w' ∧
  (r = inr target ∨
   ∃ q, r = inl (DirectoryNotFoundError q) ∧ create = false ∧
        q ∈ intermediates here walked ∧ ¬ exists_in w q ∧ w' = w) ∧
  (create = true ∨
   (∀ q, q ∈ intermediates here walked → exists_in w q) →
   r = inr target) ∧
  ∀ t, r = inr t →
    Context.path (c w') = t ∧
    (t ≠ Context.path (c w) →
       Context.session (c w') = t ∧
       listeners_at w' t = listeners_at w t ∪ {[key]} ∧
       listeners_at w' old = listeners_at w old ∖ {[key]} ∧
       ∀ p, p ≠ old → p ≠ t →
            listeners_at w' p = listeners_at w p) ∧
    (t = Context.path (c w) →
       c w' = c w ∧ ∀ p, listeners_at w' p = listeners_at w p).
Proof.
  intros Hsub Hcd key old here walked target.
  destruct path as [arg|].
  2: { unfold cd, bind, context, ret in Hcd. injection Hcd as <- <-.
       split; [done|]. split; [by left|]. split; [done|].
       intros t [= <-]. split; [done|]. split; [done|].
       intros _. done. }
  assert (target = match arg with
                   | CdNum n => pop n (Context.path (c w))
                   | _ => resolve (Context.path (c w)) (segments arg)
                   end) as Htarget by (by destruct arg).
  destruct (resolution_cases arg create w)
    as [(w1 & Hres & He & _)|(q & Hcreate & Hres & Hq & Hmissing)].
  - rewrite <- Htarget in Hres.
    destruct (cd_resolved _ _ _ _ _ Hsub Hres He)
      as (w2 & Hcd2 & Hs2 & Hrest).
    rewrite Hcd2 in Hcd. injection Hcd as <- <-.
    split; [done|]. split; [by left|]. split; [done|].
    by intros t [= <-].
  - rewrite cd_unfold, Hres in Hcd. injection Hcd as <- <-.
    split; [done|]. split; [right; by exists q|].
    split; [|intros t [=]].
    intros [Htrue|Hall]; [congruence|]. destruct Hmissing. by apply Hall.
Qed.

(** C10.  A [cd] that fails with a directory-not-found error changes
    nothing at all: not the context's path, not its session reference, no
    listener set, no session. *)
Theorem cd_not_found_changes_nothing path create w w' q :
  cd path create w = (w', inl (DirectoryNotFoundError q)) →
  w' = w ∧
  Context.path (c w') = Context.path (c w) ∧
  Context.session (c w') = Context.session (c w) ∧
  ∀ p, listeners_at w' p = listeners_at w p.
Proof.
  intros Hcd. enough (w' = w) as -> by done.
  destruct path as [arg|]; [|done].
  rewrite cd_unfold in Hcd.
  destruct (resolution_cases arg create w)
    as [(w1 & Hres & He & _)|(q' & _ & Hres & _)]; rewrite Hres in Hcd.
  - case_bool_decide; [|done].
    apply migrate_error in Hcd as (_ & [[=]|[=]]).
  - by injection Hcd as <- _.
Qed.

(** C5.  Without the create flag, a [cd] whose segment sequence runs
    through a path that is not in the store fails with a
    directory-not-found error, and nothing is changed.  With the create
    flag, [cd] never fails with directory-not-found, and every path the
    sequence runs through is in the store afterwards. *)
Theorem cd_create_flag arg w :
  let here := Context.path (c w) in
  (∀ q, q ∈ intermediates here (segments arg) → ¬ exists_in w q →
        ∃ q', cd (Some arg) false w = (w, inl (DirectoryNotFoundError q')) ∧
              q' ∈ intermediates here (segments arg) ∧
              ¬ exists_in w q') ∧
  (∀ w' r, cd (Some arg) true w = (w', r) →
           (∀ q, r ≠ inl (DirectoryNotFoundError q)) ∧
           ∀ q, q ∈ intermediates here (segments arg) → exists_in w' q).
Proof.
  intros here. split.
  - intros q Hq Hn. rewrite cd_unfold.
    destruct (resolution_cases arg false w)
      as [(w1 & Hres & _ & Hsame & Hl)|(q' & _ & Hres & Hq' & Hn')].
    + rewrite (Hsame eq_refl) in Hl. destruct Hn. by apply Hl.
    + exists q'. by rewrite Hres.
  - intros w' r Hcd. rewrite cd_unfold in Hcd.
    destruct (resolution_cases arg true w)
      as [(w1 & Hres & _ & _ & Hl)|(q' & [=] & _)].
    rewrite Hres in Hcd. case_bool_decide.
    + split.
      * intros q ->. apply migrate_error in Hcd as (_ & [[=]|[=]]).
      * intros q Hq. eapply migrate_exists; [exact Hcd|]. by apply Hl.
    + injection Hcd as <- <-. split; [done|]. exact Hl.
Qed.

Lemma migrate_ok cx temp w w' t :
  migrate cx temp w = (w', inr t) →
  t = temp ∧ Context.path (c w') = temp.
Proof.
  intros Hm. pose proof (migrate_spec cx temp w) as Hs. simpl in Hs.
  destruct (session_store w !! Context.session cx) as [s|].
  - destruct (decide (contextKey cx ∈ Session.listeners s)).
    + destruct Hs as (w2 & Hs & Hc & _).
      rewrite Hs in Hm. injection Hm as <- <-. by rewrite Hc.
    + by rewrite Hs in Hm.
  - by rewrite Hs in Hm.
Qed.

Lemma resolve_app temp l1 l2 :
  resolve temp (l1 ++ l2) = resolve (resolve temp l1) l2.
Proof. apply foldl_app. Qed.

(** C4.  For a context set up by [initContext], [cd] with a number [n > 0]
    moves to the current path without its last [n] segments, or to the
    root when the path has no more than [n] segments, and
    [cd] with [0] changes nothing.  A [cd] through a segment sequence
    with an empty segment ends where the segments after it lead from the
    root. *)
Theorem cd_number_and_root :
  (∀ n create w,
     subscribed w → 0 < n →
     let here := Context.path (c w) in
     let there :=
       if decide (Z.of_nat (length here) ≤ n) then root
       else take (length here - Z.to_nat n) here in
     ∃ w', cd (Some (CdNum n)) create w = (w', inr there) ∧
           Context.path (c w') = there) ∧
  (∀ create w,
     cd (Some (CdNum 0)) create w = (w, inr (Context.path (c w)))) ∧
  (∀ l1 l2 create w w' t,
     cd (Some (CdList (l1 ++ EmptyString :: l2))) create w = (w', inr t) →
     t = resolve root l2 ∧ Context.path (c w') = t).
Proof.
  split; [|split].
  - intros n create w Hsub Hn here there.
    assert (pop n here = there) as Hpop.
    { unfold pop, there, drop_last.
      rewrite (proj2 (Z.ltb_lt 0 n)) by done.
      destruct (decide (Z.of_nat (length here) ≤ n)) as [Hle|Hgt].
      - replace (Z.to_nat (Z.of_nat (length here) - n)) with 0%nat by lia.
        by rewrite take_0.
      - replace (Z.to_nat (Z.of_nat (length here) - n))
          with (length here - Z.to_nat n)%nat by lia.
        rewrite bool_decide_eq_false_2; [done|].
        rewrite length_take. lia. }
    rewrite <- Hpop.
    destruct (cd_resolved (CdNum n) create w w (pop n here) Hsub eq_refl
                (extends_refl w)) as (w' & Hcd & _ & Hp & _).
    by exists w'.
  - intros create w. rewrite cd_unfold. simpl. unfold ret.
    by rewrite bool_decide_eq_false_2 by (intros H; by apply H).
  - intros l1 l2 create w w' t Hcd. rewrite cd_unfold in Hcd.
    destruct (resolution_cases (CdList (l1 ++ EmptyString :: l2)) create w)
      as [(w1 & Hres & (Hc & _) & _)|(q & _ & Hres & _)];
      rewrite Hres in Hcd; [|done].
    simpl in Hcd.
    assert (resolve (Context.path (c w)) (l1 ++ EmptyString :: l2)
            = resolve root l2) as Hroot by (by rewrite resolve_app).
    rewrite Hroot in Hcd.
    case_bool_decide as Hne.
    + by apply migrate_ok in Hcd as [-> Hp].
    + injection Hcd as <- <-. rewrite Hc. by rewrite Hne.
Qed.

(** ** Claims about [mkdir] *)

Lemma mkdir_ok name w w1 p :
  mkdir name w = (w1, inr p) →
  name ≠ EmptyString ∧ p = Context.path (c w) ++ [name] ∧
  ¬ exists_in w p ∧
  extends w w1 ∧ exists_in w1 p.
Proof.
  unfold mkdir.
  destruct (String.eqb_spec name EmptyString) as [->|Hname]; [done|].
  unfold bind, context. rewrite exists_spec.
  case_bool_decide as Hex; [done|].
  destruct (get_spec (Context.path (c w) ++ [name]) w)
    as (w' & -> & He & Hx & _).
  intros [= <- <-]. done.
Qed.

(** C8.  [mkdir] with the empty name fails with an invalid-argument error;
    with a name whose path under the current directory is already in the
    store it fails with an already-exists error; in both cases nothing is
    changed.  Otherwise it creates the session at that path and returns
    the path, and the context keeps its path and its session. *)
Theorem mkdir_contract name w :
  let path := Context.path (c w) ++ [name] in
  (name = EmptyString →
     mkdir name w = (w, inl EmptyNameError) ∧
     kind_of EmptyNameError = Some InvalidArgument) ∧
  (name ≠ EmptyString → exists_in w path →
     mkdir name w = (w, inl (DirectoryExistsError path)) ∧
     kind_of (DirectoryExistsError path) = Some AlreadyExists) ∧
  (name ≠ EmptyString → ¬ exists_in w path →
     ∃ w', mkdir name w = (w', inr path) ∧
           ¬ exists_in w path ∧ exists_in w' path ∧
           Context.path (c w') = Context.path (c w) ∧
           Context.session (c w') = Context.session (c w) ∧
           extends w w').
Proof.
  intros path. split; [|split].
  - by intros ->.
  - intros Hname Hex. unfold mkdir.
    destruct (String.eqb_spec name EmptyString) as [->|_]; [done|].
    unfold bind, context. rewrite exists_spec. fold path.
    by rewrite bool_decide_eq_true_2.
  - intros Hname Hex. unfold mkdir.
    destruct (String.eqb_spec name EmptyString) as [->|_]; [done|].
    unfold bind, context. rewrite exists_spec. fold path.
    rewrite bool_decide_eq_false_2 by done.
    destruct (get_spec path w) as (w' & -> & He & Hx & _).
    exists w'. pose proof He as (Hc & _). rewrite Hc. done.
Qed.

(** C9.  After a successful [mkdir name], [cd [name]] without the create
    flag from the same directory never fails with directory-not-found;
    for a context set up by [initContext] it succeeds and moves the
    context to the directory just made. *)
Theorem mkdir_then_cd name w w1 p :
  mkdir name w = (w1, inr p) →
  (∀ q, (cd (Some (CdList [name])) false w1).2
        ≠ inl (DirectoryNotFoundError q)) ∧
  (subscribed w →
   ∃ w2, cd (Some (CdList [name])) false w1 = (w2, inr p) ∧
         Context.path (c w2) = p ∧ p = Context.path (c w) ++ [name]).
Proof.
  intros (Hname & -> & _ & He & Hx)%mkdir_ok.
  pose proof He as (Hc & _).
  assert (enter (Context.path (c w1)) name = Context.path (c w) ++ [name])
    as Henter.
  { unfold enter. rewrite Hc.
    by destruct (String.eqb_spec name EmptyString) as [->|_]. }
  assert (resolution (CdList [name]) false (c w1) w1 =
          (w1, inr (Context.path (c w) ++ [name]))) as Hres.
  { destruct (resolution_cases (CdList [name]) false w1)
      as [(w2 & Hres & _ & Hsame & _)|(q & _ & _ & Hq & Hn)].
    - rewrite (Hsame eq_refl) in Hres. rewrite Hres. simpl.
      by rewrite Henter.
    - simpl in Hq. rewrite Henter in Hq.
      apply list_elem_of_singleton in Hq as ->. by destruct Hn. }
  split.
  - intros q Hq. rewrite cd_unfold, Hres in Hq.
    case_bool_decide; [|done]. simpl in Hq.
    destruct (migrate _ _ w1) as [w2 [e|t]] eqn:Hm; [|done].
    simpl in Hq. injection Hq as ->.
    apply migrate_error in Hm as (_ & [[=]|[=]]).
  - intros Hsub.
    destruct (cd_resolved (CdList [name]) false w1 w1
                (Context.path (c w) ++ [name]))
      as (w2 & Hcd & _ & Hp & _); [by eapply subscribed_extends|done|
                                   apply extends_refl|].
    by exists w2.
Qed.

(** ** Claims about the selected dataset *)

(** C6.  With no dataset selected in the context, each of the data,
    parameter and comment handlers raises the no-dataset error and leaves
    the store, the signals sent and the context as they were. *)
Theorem no_dataset_selected w :
  Context.selected (c w) = None →
  kind_of NoDatasetError = Some NoDatasetOpen ∧
  (∀ data, add data w = (w, inl NoDatasetError)) ∧
  (∀ limit startOver, get limit startOver w = (w, inl NoDatasetError)) ∧
  variables w = (w, inl NoDatasetError) ∧
  parameters w = (w, inl NoDatasetError) ∧
  (∀ how name data,
     add_parameter how name data w = (w, inl NoDatasetError)) ∧
  (∀ how params, add_parameters how params w = (w, inl NoDatasetError)) ∧
  get_name w = (w, inl NoDatasetError) ∧
  (∀ name cs, get_parameter name cs w = (w, inl NoDatasetError)) ∧
  get_parameters w = (w, inl NoDatasetError) ∧
  (∀ now comment user,
     add_comment now comment user w = (w, inl NoDatasetError)) ∧
  (∀ limit startOver,
     get_comments limit startOver w = (w, inl NoDatasetError)).
Proof.
  intros Hnone.
  assert (getDataset w = (w, inl NoDatasetError)) as Hg.
  { unfold getDataset, bind, context. by rewrite Hnone. }
  split; [done|].
  repeat split; intros;
    unfold add, get, variables, parameters, add_parameter, add_parameters,
      get_name, get_parameter, get_parameters, add_comment, get_comments;
    unfold bind at 1; by rewrite Hg.
Qed.

Lemma dataset_at_spec r w :
  dataset_at r w =
  (w, match dataset_in w r with
      | Some d => inr d
      | None => inl StaleReference
      end).
Proof.
  unfold dataset_at, dataset_in, bind, session_at.
  destruct (session_store w !! r.1) as [s|]; [|done].
  by destruct (Session.datasets s !! r.2).
Qed.

Lemma dataset_in_insert w ob cx p i s d d' :
  Session.datasets s !! i = Some d →
  dataset_in (mkWorld (<[p := Session.with_datasets
                                (<[i := d']> (Session.datasets s)) s]>
                         (session_store w)) ob cx) (p, i) = Some d'.
Proof.
  intros Hd. unfold dataset_in. simpl. rewrite lookup_insert_eq. simpl.
  apply list_lookup_insert_eq. by eapply lookup_lt_Some.
Qed.

Lemma set_dataset_spec r d' w d :
  dataset_in w r = Some d →
  ∃ w', set_dataset r d' w = (w', inr ()) ∧
        dataset_in w' r = Some d' ∧
        c w' = c w ∧ outbox w' = outbox w ∧ same_sessions w w'.
Proof.
  unfold dataset_in, set_dataset, bind, session_at, set_session.
  destruct r as [p i]. simpl.
  destruct (session_store w !! p) as [s|] eqn:Hs; [|done]. intros Hd.
  eexists. split; [reflexivity|]. split; [by eapply dataset_in_insert|].
  split; [done|]. split; [done|]. split.
  - intros q. rewrite listeners_at_insert. case_decide as Hq; [|done].
    subst q. unfold listeners_at. by rewrite Hs.
  - intros q. unfold exists_in. simpl. rewrite lookup_insert.
    case_decide as Hq; [|done]. subst q. rewrite Hs.
    split; intros _; by eexists.
Qed.

Lemma update_dataset_spec r f w d :
  dataset_in w r = Some d →
  ∃ w', update_dataset r f w = (w', inr ()) ∧
        dataset_in w' r = Some (f d) ∧
        c w' = c w ∧ outbox w' = outbox w ∧ same_sessions w w'.
Proof.
  intros Hd. unfold update_dataset, bind. rewrite dataset_at_spec, Hd.
  by eapply set_dataset_spec.
Qed.

Lemma same_sessions_trans w1 w2 w3 :
  same_sessions w1 w2 → same_sessions w2 w3 → same_sessions w1 w3.
Proof.
  intros [Hl1 Hx1] [Hl2 Hx2]. split; intros p.
  - by rewrite Hl2, Hl1.
  - by rewrite Hx2, Hx1.
Qed.

(** A handler that keeps the context's identity, path and session and
    the listener sets keeps the context subscribed. *)
Lemma subscribed_same_sessions w w' :
  Context.ID (c w') = Context.ID (c w) →
  Context.path (c w') = Context.path (c w) →
  Context.session (c w') = Context.session (c w) →
  same_sessions w w' → subscribed w → subscribed w'.
Proof.
  intros Hid Hp Hs [Hl Hx] (Hsp & Hex & Hsub). unfold subscribed, contextKey.
  rewrite Hs, Hp, Hid. split; [done|]. split; [by apply Hx|].
  intros p. rewrite Hl. apply Hsub.
Qed.

Lemma contextKey_with_selected o cx :
  contextKey (Context.with_selected o cx) = contextKey cx.
Proof. done. Qed.

Lemma path_with_selected o cx :
  Context.path (Context.with_selected o cx) = Context.path cx.
Proof. done. Qed.

Lemma open_spec name w w' r :
  open name w = (w', inr r) →
  ∃ s i d,
    session_store w !! Context.session (c w) = Some s ∧
    Session.openDataset name s = inr i ∧
    Session.datasets s !! i = Some d ∧
    r = (Context.path (c w), Dataset.name d) ∧
    c w' = Context.with_selected
             (Some (Context.select (Dataset.name d)
                      (Context.session (c w), i) 0 0 false)) (c w) ∧
    dataset_in w' (Context.session (c w), i) =
      Some (Dataset.keepStreamingComments (contextKey (c w)) 0
              (Dataset.keepStreaming (contextKey (c w)) 0 d)) ∧
    same_sessions w w'.
Proof.
  unfold open, getSession. unfold bind at 1. unfold bind at 1.
  unfold context at 1, ret at 1. unfold bind at 1. unfold session_at at 1.
  destruct (session_store w !! Context.session (c w)) as [s|] eqn:Hs;
    [|done].
  unfold bind at 1.
  destruct (Session.openDataset name s) as [e|i] eqn:Hopen; [done|].
  unfold lift, ret at 1. unfold bind at 1. rewrite dataset_at_spec.
  unfold dataset_in at 1. simpl. rewrite Hs.
  destruct (Session.datasets s !! i) as [d|] eqn:Hd; [|done].
  unfold bind at 1. unfold context at 1. unfold bind at 1.
  unfold set_context at 1. unfold bind at 1. unfold context at 1.
  simpl c. set (w1 := mkWorld _ _ _).
  assert (dataset_in w1 (Context.session (c w), i) = Some d) as Hin.
  { unfold dataset_in. simpl. by rewrite Hs. }
  rewrite !contextKey_with_selected, path_with_selected.
  unfold bind at 1.
  destruct (update_dataset_spec _
              (Dataset.keepStreaming (contextKey (c w)) 0) _ _ Hin)
    as (w2 & -> & Hin2 & Hc2 & _ & Hf2).
  unfold bind at 1.
  destruct (update_dataset_spec _
              (Dataset.keepStreamingComments (contextKey (c w)) 0) _ _ Hin2)
    as (w3 & -> & Hin3 & Hc3 & _ & Hf3).
  unfold selection, bind, context. rewrite Hc3, Hc2. simpl.
  intros [= <- <-]. exists s, i, d. rewrite Hc3, Hc2.
  repeat (split; [done|]).
  apply (same_sessions_trans w w1 w3); [done|].
  by apply (same_sessions_trans w1 w2 w3).
Qed.

(** C7.  A successful [open] resolves the name or number to a dataset of
    the context's session; afterwards the context has that dataset
    selected with both cursors at 0 and the writing flag off, and the
    context's key is in the dataset's data-listener and comment-listener
    structures at offset 0. *)
Theorem open_selects_and_registers name w w' r :
  open name w = (w', inr r) →
  let key := contextKey (c w) in
  ∃ s i d d',
    session_store w !! Context.session (c w) = Some s ∧
    Session.openDataset name s = inr i ∧
    Session.datasets s !! i = Some d ∧
    r = (Context.path (c w), Dataset.name d) ∧
    Context.selected (c w') =
      Some (Context.select (Dataset.name d) (Context.session (c w), i)
                           0 0 false) ∧
    dataset_in w' (Context.session (c w), i) = Some d' ∧
    Dataset.name d' = Dataset.name d ∧
    Dataset.rows d' = Dataset.rows d ∧
    Dataset.comments d' = Dataset.comments d ∧
    Dataset.listeners d' !! key = Some 0%nat ∧
    Dataset.comment_listeners d' !! key = Some 0%nat.
Proof.
  intros (s & i & d & Hs & Ho & Hd & -> & Hc & Hin & _)%open_spec key.
  exists s, i, d. eexists. rewrite Hc. simpl.
  repeat (split; [done|]).
  split; simpl; apply lookup_insert_eq.
Qed.

Lemma new_spec name ind dep w w' r :
  new name ind dep w = (w', inr r) →
  ∃ s, session_store w !! Context.session (c w) = Some s ∧
       let i := length (Session.datasets s) in
       let nm := Session.dataset_name (S i)
                   (if String.eqb name EmptyString then "untitled" else name) in
       r = (Context.path (c w), nm) ∧
       c w' = Context.with_selected
                (Some (Context.select nm (Context.session (c w), i)
                                      0 0 true)) (c w) ∧
       dataset_in w' (Context.session (c w), i) =
         Some (Dataset.create nm ind dep) ∧
       same_sessions w w'.
Proof.
  unfold new, getSession. unfold bind at 1. unfold bind at 1.
  unfold context at 1, ret at 1. unfold bind at 1. unfold session_at at 1.
  destruct (session_store w !! Context.session (c w)) as [s|] eqn:Hs;
    [|done].
  unfold bind at 1. unfold Session.newDataset.
  destruct (Session.well_formed ind dep); [|done].
  unfold lift, ret at 1. simpl fst. simpl snd.
  unfold bind at 1, set_session at 1. unfold bind at 1, send at 1.
  simpl session_store. simpl outbox. simpl c.
  unfold bind at 1. rewrite dataset_at_spec.
  set (nm := Session.dataset_name _ _).
  set (w1 := mkWorld _ _ _).
  assert (dataset_in w1 (Context.session (c w), length (Session.datasets s))
          = Some (Dataset.create nm ind dep)) as Hin.
  { unfold dataset_in. simpl. rewrite lookup_insert_eq. simpl.
    by apply list_lookup_middle. }
  rewrite Hin.
  unfold selection, bind, context, set_context. simpl.
  intros [= <- <-]. exists s. split; [done|]. simpl.
  repeat (split; [done|]). split.
  - intros q. rewrite listeners_at_insert. case_decide as Hq; [|done].
    subst q. unfold listeners_at. by rewrite Hs.
  - intros q. unfold exists_in. simpl. rewrite lookup_insert.
    case_decide as Hq; [|done]. subst q. rewrite Hs.
    split; intros _; by eexists.
Qed.

Lemma add_unfold data w o :
  Context.selected (c w) = Some o →
  add data w =
  if Context.writing o then
    (d <- dataset_at (Context.datasetObj o) ;;
     r <- lift (Dataset.addData (rows_of data) d) ;;
     set_dataset (Context.datasetObj o) r.1 ;;
     send r.2) w
  else (w, inl ReadOnlyError).
Proof.
  intros Ho. unfold add, getDataset, selection.
  unfold bind at 1. unfold bind at 1.
  unfold context at 1. rewrite Ho. unfold ret at 1.
  unfold bind at 1. unfold bind at 1. unfold context at 1. rewrite Ho.
  unfold ret at 1. by destruct (Context.writing o).
Qed.

Lemma add_writing data w o d :
  Context.selected (c w) = Some o →
  Context.writing o = true →
  dataset_in w (Context.datasetObj o) = Some d →
  match Dataset.addData (rows_of data) d with
  | inl e => add data w = (w, inl e)
  | inr r =>
      ∃ w', add data w = (w', inr ()) ∧
            dataset_in w' (Context.datasetObj o) = Some r.1 ∧
            outbox w' = r.2 ++ outbox w ∧ c w' = c w
  end.
Proof.
  intros Ho Hw Hd.
  assert (add data w =
          match Dataset.addData (rows_of data) d with
          | inl e => (w, inl e)
          | inr r => (set_dataset (Context.datasetObj o) r.1 ;; send r.2) w
          end) as ->.
  { rewrite (add_unfold data w o Ho), Hw.
    unfold bind at 1. rewrite dataset_at_spec, Hd.
    unfold bind at 1.
    by destruct (Dataset.addData (rows_of data) d) as [e|r]. }
  destruct (Dataset.addData (rows_of data) d) as [e|r]; [done|].
  unfold bind.
  destruct (set_dataset_spec _ r.1 _ _ Hd)
    as (w1 & -> & Hin & Hc & Hob & _).
  eexists. split; [reflexivity|]. simpl. by rewrite Hob.
Qed.

(** ** The context stays subscribed *)

Lemma mkdir_subscribed name w :
  subscribed w → subscribed (run (mkdir name) w).
Proof.
  intros Hsub. unfold run.
  destruct (mkdir name w) as [w' [e|p]] eqn:Hm.
  - enough (w' = w) as -> by done.
    revert Hm. unfold mkdir.
    destruct (String.eqb name EmptyString); [by intros [= <- _]|].
    unfold bind, context. rewrite exists_spec.
    case_bool_decide; [by intros [= <- _]|].
    by destruct (get_spec (Context.path (c w) ++ [name]) w) as (w2 & -> & _).
  - apply mkdir_ok in Hm as (_ & _ & _ & He & _).
    by eapply subscribed_extends.
Qed.

Lemma new_subscribed name ind dep w w' r :
  new name ind dep w = (w', inr r) → subscribed w → subscribed w'.
Proof.
  intros (s & _ & _ & Hc & _ & Hsame)%new_spec.
  apply subscribed_same_sessions; by rewrite ?Hc.
Qed.

Lemma open_subscribed name w w' r :
  open name w = (w', inr r) → subscribed w → subscribed w'.
Proof.
  intros (s & i & d & _ & _ & _ & _ & Hc & _ & Hsame)%open_spec.
  apply subscribed_same_sessions; by rewrite ?Hc.
Qed.


(** ** Claims about [expireContext] *)

Lemma removeFromList_set key (ls : gset N) : key ∉ removeFromList key ls.
Proof.
  unfold removeFromList. simpl. case_bool_decide as Hin; [|done].
  intros [_ Hk]%elem_of_difference. apply Hk. by apply elem_of_singleton.
Qed.

Lemma removeFromList_offsets key (ls : gmap N nat) :
  removeFromList key ls !! key = None.
Proof.
  unfold removeFromList. simpl. case_bool_decide as Hin.
  - apply lookup_delete_eq.
  - destruct (ls !! key) eqn:E; [|done]. destruct Hin. by eexists.
Qed.

Lemma expire_dataset_unregistered key d :
  unregistered key (expire_dataset key d).
Proof.
  unfold unregistered, expire_dataset. simpl.
  split; [apply removeFromList_offsets|].
  split; [apply removeFromList_set|apply removeFromList_offsets].
Qed.

Lemma expire_session_clean key s :
  (key ∉ Session.listeners (expire_session key s)) ∧
  ∀ d, d ∈ Session.datasets (expire_session key s) → unregistered key d.
Proof.
  unfold expire_session. simpl. split; [apply removeFromList_set|].
  intros d (d0 & -> & _)%list_elem_of_fmap.
  apply expire_dataset_unregistered.
Qed.

(** The loop of [expireContext] over a list of distinct, live references
    never fails and rewrites exactly the sessions listed. *)
Lemma expire_loop key ks w :
  NoDup ks → (∀ p, p ∈ ks → exists_in w p) →
  ∃ w', forM_ ks (λ session,
                    s <- session_at session ;;
                    set_session session (expire_session key s)) w
        = (w', inr ()) ∧
        c w' = c w ∧ outbox w' = outbox w ∧
        ∀ p, session_store w' !! p =
             if decide (p ∈ ks)
             then expire_session key <$> session_store w !! p
             else session_store w !! p.
Proof.
  revert w. induction ks as [|k ks IH]; intros w Hnd Hlive.
  - exists w. split; [done|]. split; [done|]. split; [done|].
    intros p. rewrite decide_False; [done|]. apply not_elem_of_nil.
  - apply NoDup_cons in Hnd as [Hk Hnd]. simpl.
    destruct (Hlive k) as [s Hs]; [apply elem_of_cons; by left|].
    unfold bind at 1. unfold bind at 1. unfold session_at at 1.
    rewrite Hs. unfold set_session at 1.
    set (w1 := mkWorld _ _ _).
    destruct (IH w1 Hnd) as (w' & -> & Hc & Hob & Hl).
    { intros p Hp. unfold exists_in. simpl.
      rewrite lookup_insert. destruct (decide (k = p)); [by eexists|].
      apply Hlive. apply elem_of_cons. by right. }
    exists w'. split; [done|]. split; [done|]. split; [done|].
    intros p. rewrite Hl. simpl.
    destruct (decide (p = k)) as [->|Hne].
    + rewrite decide_False by done.
      rewrite (decide_True (P := k ∈ k :: ks))
        by (apply elem_of_cons; by left).
      by rewrite lookup_insert_eq, Hs.
    + rewrite lookup_insert_ne by done.
      destruct (decide (p ∈ ks)) as [Hin|Hnin].
      * rewrite decide_True; [done|]. apply elem_of_cons. by right.
      * rewrite decide_False; [done|].
        intros [?|?]%elem_of_cons; done.
Qed.

Lemma expireContext_spec w :
  ∃ w', expireContext w = (w', inr ()) ∧
        c w' = c w ∧ outbox w' = outbox w ∧
        session_store w' =
          expire_session (contextKey (c w)) <$> session_store w.
Proof.
  unfold expireContext. unfold bind at 1, context at 1.
  unfold bind at 1, SessionStore.get_all at 1.
  destruct (expire_loop (contextKey (c w))
              (map_to_list (session_store w)).*1 w)
    as (w' & Hloop & Hc & Hob & Hl).
  { apply NoDup_fst_map_to_list. }
  { intros p [[p' s] [-> Hin]]%list_elem_of_fmap.
    apply elem_of_map_to_list in Hin. by exists s. }
  exists w'. split; [done|]. split; [done|]. split; [done|].
  apply map_eq. intros p. rewrite Hl, lookup_fmap.
  case_decide as Hin; [done|].
  destruct (session_store w !! p) as [s|] eqn:Hs; [|done].
  destruct Hin. apply list_elem_of_fmap. exists (p, s).
  split; [done|]. by apply elem_of_map_to_list.
Qed.

Lemma behind_subset key len (l : gmap N nat) :
  l !! key = None → key ∉ Dataset.behind len l.
Proof.
  intros Hn. unfold Dataset.behind.
  intros [n Hf]%elem_of_dom. apply map_lookup_filter_Some in Hf as [Hf _].
  congruence.
Qed.

(** C2.  [expireContext] never fails.  Afterwards the context's key is in
    the listener set of no session in the store and in none of the data,
    parameter and comment listener containers of any dataset of any
    session.  An [add] that any context then makes sends its signals to
    sets of contexts that do not contain the key. *)
Theorem expireContext_unsubscribes w :
  let key := contextKey (c w) in
  ∃ w', expireContext w = (w', inr ()) ∧
        (∀ p s, session_store w' !! p = Some s →
                (key ∉ Session.listeners s) ∧
                ∀ d, d ∈ Session.datasets s → unregistered key d) ∧
        (∀ cx data w'' r,
           add data (with_context cx w') = (w'', r) →
           ∃ sent, outbox w'' = sent ++ outbox w' ∧
                   ∀ sig, sig ∈ sent → key ∉ targets sig).
Proof.
  intros key.
  destruct (expireContext_spec w) as (w' & Hex & Hc & Hob & Hst).
  exists w'. split; [done|].
  assert (∀ p s, session_store w' !! p = Some s →
                 (key ∉ Session.listeners s) ∧
                 ∀ d, d ∈ Session.datasets s → unregistered key d)
    as Hclean.
  { intros p s Hs. rewrite Hst, lookup_fmap in Hs.
    destruct (session_store w !! p) as [s0|]; [|done].
    injection Hs as <-. apply expire_session_clean. }
  split; [exact Hclean|].
  intros cx data w'' r Hadd.
  assert (∀ e, add data (with_context cx w') = (with_context cx w', inl e) →
               ∃ sent, outbox w'' = sent ++ outbox w' ∧
                       ∀ sig, sig ∈ sent → key ∉ targets sig) as Hnone.
  { intros e He. rewrite He in Hadd. injection Hadd as <- <-.
    exists []. split; [done|]. intros sig Hsig.
    by apply elem_of_nil in Hsig. }
  destruct (Context.selected (c (with_context cx w'))) as [o|] eqn:Ho.
  2: { apply (Hnone NoDatasetError).
       unfold add, getDataset. unfold bind at 1.
       unfold bind at 1, context at 1. by rewrite Ho. }
  destruct (Context.writing o) eqn:Hw.
  2: { apply (Hnone ReadOnlyError). by rewrite (add_unfold data _ o Ho), Hw. }
  destruct (dataset_in (with_context cx w') (Context.datasetObj o))
    as [d|] eqn:Hd.
  2: { apply (Hnone StaleReference).
       rewrite (add_unfold data _ o Ho), Hw.
       unfold bind at 1. by rewrite dataset_at_spec, Hd. }
  pose proof (add_writing data (with_context cx w') o d Ho Hw Hd) as Ha.
  assert (unregistered key d) as (Hdata & _ & _).
  { unfold dataset_in in Hd. simpl in Hd.
    destruct (session_store w' !! (Context.datasetObj o).1) as [s|] eqn:Hs;
      [|done].
    eapply Hclean; [exact Hs|]. by eapply list_elem_of_lookup_2. }
  unfold Dataset.addData in Ha.
  destruct (forallb _ _).
  - destruct Ha as (w2 & Ha & _ & Hout & _).
    rewrite Ha in Hadd. injection Hadd as <- <-.
    eexists. split; [exact Hout|]. simpl.
    intros sig ->%list_elem_of_singleton. simpl.
    by apply behind_subset.
  - by apply (Hnone BadDataError).
Qed.

(** * The theorems at work on a concrete server

    The server is started, context [7] is initialised, and the handlers
    are run from there. *)

Lemma cd_listener_migration_witness :
  subscribed (started 7) ∧
  (cd (Some (CdList ["a"; "b"])) true (started 7)).2
    = inr (root ++ ["a"; "b"]) ∧
  subscribed in_a_b ∧
  Context.path (c in_a_b) = root ++ ["a"; "b"] ∧
  Context.session (c in_a_b) = root ++ ["a"; "b"] ∧
  7%N ∈ listeners_at in_a_b (root ++ ["a"; "b"]) ∧
  7%N ∉ listeners_at in_a_b root.
Proof.
  split; [apply started_subscribed|].
  unfold in_a_b, run.
  destruct (cd_listener_migration (Some (CdList ["a"; "b"])) true
              (started 7) _ _ (started_subscribed 7)
              (surjective_pairing _))
    as (Hsub & _ & Hgoes & Hmoved).
  cbv zeta in Hgoes, Hmoved. cbv iota in Hgoes.
  assert (resolve (Context.path (c (started 7)))
            (segments (CdList ["a"; "b"])) = root ++ ["a"; "b"]) as Hthere
    by (vm_compute; reflexivity).
  rewrite Hthere in Hgoes.
  pose proof (Hgoes (or_introl eq_refl)) as Hr.
  destruct (Hmoved _ Hr) as (Hpath & Hmove & _).
  destruct Hmove as (Hsession & Hnew & Hold & _).
  { intros H. vm_compute in H. discriminate. }
  assert (contextKey (c (started 7)) = 7%N) as Hkey
    by (vm_compute; reflexivity).
  assert (Context.session (c (started 7)) = root) as Hroot
    by (vm_compute; reflexivity).
  rewrite Hkey in Hnew, Hold. rewrite Hroot in Hold.
  split; [exact Hr|]. split; [exact Hsub|]. split; [exact Hpath|].
  split; [exact Hsession|]. split.
  - rewrite Hnew. apply elem_of_union. right. by apply elem_of_singleton.
  - rewrite Hold. intros [_ Hn]%elem_of_difference. apply Hn.
    by apply elem_of_singleton.
Defined.

Lemma cd_not_found_changes_nothing_witness :
  (cd (Some (CdList ["a"; "b"])) false (started 7)).2 =
    inl (DirectoryNotFoundError (root ++ ["a"])) ∧
  run (cd (Some (CdList ["a"; "b"])) false) (started 7) = started 7.
Proof.
  split; [vm_compute; reflexivity|].
  refine (proj1 (cd_not_found_changes_nothing
                   (Some (CdList ["a"; "b"])) false (started 7) _
                   (root ++ ["a"]) _)).
  vm_compute; reflexivity.
Defined.

Lemma cd_create_flag_witness :
  (∃ q, cd (Some (CdList ["a"; "b"])) false (started 7) =
          (started 7, inl (DirectoryNotFoundError q))) ∧
  exists_in in_a_b (root ++ ["a"]) ∧ exists_in in_a_b (root ++ ["a"; "b"]).
Proof.
  destruct (cd_create_flag (CdList ["a"; "b"]) (started 7)) as [Hf Ht].
  split.
  - destruct (Hf (root ++ ["a"])) as (q & Hq & _).
    + vm_compute. constructor.
    + intros [s Hs]. vm_compute in Hs. discriminate.
    + by exists q.
  - destruct (Ht _ _ (surjective_pairing _)) as [_ Hx].
    split; apply Hx; vm_compute; repeat constructor.
Defined.

Lemma cd_number_and_root_witness :
  (cd (Some (CdNum 1)) false in_a_b).2 = inr (root ++ ["a"]) ∧
  (cd (Some (CdNum 5)) false in_a_b).2 = inr root ∧
  Context.path (c through_root) = resolve root ["b"].
Proof.
  destruct cd_number_and_root as (Hnum & _ & Hroot).
  assert (subscribed in_a_b) as Hsub
    by (apply cd_subscribed, started_subscribed).
  split; [|split].
  - destruct (Hnum 1 false in_a_b Hsub) as (w' & -> & _); [lia|].
    vm_compute. reflexivity.
  - destruct (Hnum 5 false in_a_b Hsub) as (w' & -> & _); [lia|].
    vm_compute. reflexivity.
  - destruct (Hroot ["a"] ["b"] true (started 7)
                through_root
                (root ++ ["b"])) as [<- Hp]; [vm_compute; reflexivity|].
    exact Hp.
Defined.

Lemma mkdir_contract_witness :
  mkdir EmptyString (started 7) = (started 7, inl EmptyNameError) ∧
  mkdir "x" made_x = (made_x, inl (DirectoryExistsError (root ++ ["x"]))) ∧
  mkdir "x" (started 7) = (made_x, inr (root ++ ["x"])) ∧
  Context.path (c made_x) = root.
Proof.
  split; [|split].
  - by destruct (mkdir_contract EmptyString (started 7)) as ((H & _) & _).
  - destruct (mkdir_contract "x" made_x) as (_ & H & _).
    apply H; [done|]. vm_compute. eexists. reflexivity.
  - destruct (mkdir_contract "x" (started 7)) as (_ & _ & H).
    destruct H as (w' & Hm & _ & _ & Hp & _); [done| |].
    + intros [s Hs]. vm_compute in Hs. discriminate.
    + unfold made_x, run. rewrite Hm. simpl. split; [done|]. by rewrite Hp.
Defined.



Lemma mkdir_then_cd_witness :
  (mkdir "x" (started 7)).2 = inr (root ++ ["x"]) ∧
  (cd (Some (CdList ["x"])) false made_x).2 = inr (root ++ ["x"]).
Proof.
  split; [vm_compute; reflexivity|].
  destruct (mkdir_then_cd "x" (started 7) made_x (root ++ ["x"]))
    as [_ Hcd]; [vm_compute; reflexivity|].
  destruct (Hcd (started_subscribed 7)) as (w2 & -> & _). reflexivity.
Defined.

Lemma no_dataset_selected_witness :
  Context.selected (c (started 7)) = None ∧
  add (OneRow [0; 1]) (started 7) = (started 7, inl NoDatasetError) ∧
  get None false (started 7) = (started 7, inl NoDatasetError).
Proof.
  split; [reflexivity|].
  destruct (no_dataset_selected (started 7) eq_refl)
    as (_ & Hadd & Hget & _).
  split; [apply Hadd|apply Hget].
Defined.

Lemma open_selects_and_registers_witness :
  (open (ByIndex 1) second_context).2 = inr (root, "1 - scan") ∧
  ∃ o i d,
    Context.selected (c scan_opened) = Some o ∧
    Context.filepos o = 0%nat ∧ Context.commentpos o = 0%nat ∧
    Context.writing o = false ∧
    dataset_in scan_opened (root, i) = Some d ∧
    Dataset.listeners d !! 8%N = Some 0%nat ∧
    Dataset.comment_listeners d !! 8%N = Some 0%nat.
Proof.
  split; [vm_compute; reflexivity|].
  destruct (open_selects_and_registers (ByIndex 1) second_context
              scan_opened (root, "1 - scan"))
    as (s & i & d & d' & _ & _ & _ & _ & Hsel & Hin & _ & _ & _ & Hl & Hcl);
    [vm_compute; reflexivity|].
  eexists. exists i, d'. split; [exact Hsel|].
  repeat (split; [reflexivity|]).
  split; [exact Hin|]. split; [exact Hl|exact Hcl].
Defined.


Lemma expireContext_unsubscribes_witness :
  let key := contextKey (c scan_opened) in
  key = 8%N ∧
  ∃ w', expireContext scan_opened = (w', inr ()) ∧
        (key ∉ listeners_at w' root) ∧
        ∀ w'' r, add (OneRow [0; 1]) (with_context (c scan_created) w')
                 = (w'', r) →
                 ∃ sent, outbox w'' = sent ++ outbox w' ∧
                         ∀ sig, sig ∈ sent → key ∉ targets sig.
Proof.
  intros key. split; [vm_compute; reflexivity|].
  destruct (expireContext_unsubscribes scan_opened)
    as (w' & Hex & Hclean & Hadd).
  fold key in Hclean, Hadd.
  exists w'. split; [exact Hex|]. split.
  - unfold listeners_at.
    destruct (session_store w' !! root) as [s|] eqn:Hs.
    + exact (proj1 (Hclean _ _ Hs)).
    + apply not_elem_of_empty.
  - intros w'' r. exact (Hadd _ _ w'' r).
Defined.

(** * Further properties of the handlers *)

(** ** More about [cd] and [mkdir] *)

(** X1.  With the create flag, [cd] through a segment sequence from a
    context set up by [initContext] always succeeds: it returns the path
    the segments lead to, the context is there afterwards, still
    subscribed to exactly its session, and every path on the way is in
    the store. *)
Theorem cd_create_always_succeeds l w :
  subscribed w →
  let there := resolve (Context.path (c w)) l in
  ∃ w', cd (Some (CdList l)) true w = (w', inr there) ∧
        Context.path (c w') = there ∧
        Context.session (c w') = there ∧
        subscribed w' ∧
        ∀ q, q ∈ intermediates (Context.path (c w)) l → exists_in w' q.
Proof.
  intros Hsub there.
  destruct (resolution_cases (CdList l) true w)
    as [(w1 & Hres & He & _ & Hl)|(q & [=] & _)].
  destruct (cd_resolved _ _ _ _ _ Hsub Hres He)
    as (w' & Hcd & Hsub' & Hp & _).
  exists w'. split; [exact Hcd|]. split; [exact Hp|].
  split; [by rewrite (proj1 Hsub')|]. split; [done|].
  intros q Hq. pose proof (Hl q Hq) as Hx.
  rewrite cd_unfold, Hres in Hcd. simpl in Hcd.
  case_bool_decide.
  - eapply migrate_exists; [exact Hcd|done].
  - by injection Hcd as <-.
Qed.

(** Whatever its outcome, [cd] writes no key of the context dictionary
    but ['path'] and ['session']. *)
Lemma cd_context_fields path create w w' r :
  cd path create w = (w', r) →
  Context.ID (c w') = Context.ID (c w) ∧
  Context.selected (c w') = Context.selected (c w).
Proof.
  intros Hcd. destruct path as [arg|].
  2: { unfold cd, bind, context, ret in Hcd. by injection Hcd as <- _. }
  rewrite cd_unfold in Hcd.
  destruct (resolution_cases arg create w)
    as [(w1 & Hres & (Hc & _) & _)|(q & _ & Hres & _)]; rewrite Hres in Hcd.
  2: { by injection Hcd as <- _. }
  case_bool_decide.
  2: { injection Hcd as <- _. by rewrite Hc. }
  match type of Hcd with migrate _ ?t _ = _ =>
    pose proof (migrate_spec (c w) t w1) as Hm
  end.
  simpl in Hm.
  destruct (session_store w1 !! Context.session (c w)) as [s|].
  - destruct (decide (contextKey (c w) ∈ Session.listeners s)).
    + destruct Hm as (w2 & Hm & Hc2 & _). rewrite Hm in Hcd.
      injection Hcd as <- _. by rewrite Hc2.
    + rewrite Hm in Hcd. injection Hcd as <- _. by rewrite Hc.
  - rewrite Hm in Hcd. injection Hcd as <- _. by rewrite Hc.
Qed.

(** X2.  Going down and up again is a round trip: from a context set up
    by [initContext], [cd name] with the create flag followed by [cd 1]
    ends in the starting directory, with the context and every listener
    set as they were before the two calls. *)
Theorem cd_down_then_up name w :
  subscribed w →
  name ≠ EmptyString →
  Context.path (c w) ≠ [] →
  ∃ w1 w2,
    cd (Some (CdStr name)) true w
      = (w1, inr (Context.path (c w) ++ [name])) ∧
    cd (Some (CdNum 1)) false w1 = (w2, inr (Context.path (c w))) ∧
    c w2 = c w ∧
    ∀ p, listeners_at w2 p = listeners_at w p.
Proof.
  intros Hsub Hname Hpath.
  set (here := Context.path (c w)) in *. set (key := contextKey (c w)).
  assert (resolve here [name] = here ++ [name]) as Hdown.
  { unfold resolve, enter. simpl.
    by destruct (String.eqb_spec name EmptyString). }
  assert (here ++ [name] ≠ here) as Hne.
  { intros Heq. apply (f_equal length) in Heq.
    rewrite length_app in Heq. simpl in Heq. lia. }
  destruct (resolution_cases (CdStr name) true w)
    as [(wa & Hres & He & _)|(q & [=] & _)].
  change (segments (CdStr name)) with [name] in Hres.
  fold here in Hres. rewrite Hdown in Hres.
  destruct (cd_resolved _ _ _ _ _ Hsub Hres He)
    as (w1 & Hcd1 & Hsub1 & Hp1 & Hmove1 & _).
  fold here in Hmove1.
  destruct (Hmove1 Hne) as (Hs1 & Hnew1 & Hold1 & Hoth1).
  destruct (cd_context_fields _ _ _ _ _ Hcd1) as [Hid1 Hsel1].
  assert (pop 1 (Context.path (c w1)) = here) as Hup.
  { rewrite Hp1. unfold pop, drop_last. simpl.
    rewrite length_app. simpl.
    replace (Z.to_nat (Z.of_nat (length here + 1) - 1)) with (length here)
      by lia.
    rewrite take_app_length. rewrite bool_decide_eq_false_2; [done|].
    destruct here; [done|]. simpl. lia. }
  destruct (cd_resolved (CdNum 1) false w1 w1 here Hsub1)
    as (w2 & Hcd2 & Hsub2 & Hp2 & Hmove2 & _);
    [by simpl; rewrite Hup|apply extends_refl|].
  destruct Hmove2 as (Hs2 & Hnew2 & Hold2 & Hoth2); [by rewrite Hp1|].
  destruct (cd_context_fields _ _ _ _ _ Hcd2) as [Hid2 Hsel2].
  exists w1, w2. split; [exact Hcd1|]. split; [exact Hcd2|].
  destruct Hsub as (Hsp & _ & Hl). fold here in Hsp. fold key in Hl.
  unfold contextKey in Hnew2, Hold2. rewrite Hid1 in Hnew2, Hold2.
  fold (contextKey (c w)) in Hnew2, Hold2. fold key in Hnew2, Hold2.
  rewrite Hs1 in Hold2, Hoth2. rewrite Hsp in Hl, Hold1, Hoth1.
  split.
  - rewrite Hid1 in Hid2. rewrite Hsel1 in Hsel2.
    subst here. destruct (c w2), (c w). simpl in *. congruence.
  - intros p. destruct (decide (p = here)) as [->|Hp].
    + rewrite Hnew2, Hold1. fold key. apply set_eq. intros x.
      rewrite elem_of_union, elem_of_difference, !elem_of_singleton.
      destruct (decide (x = key)) as [->|Hx].
      * split; [intros _; by apply Hl|by right].
      * split; [by intros [[? _]|?]|by left].
    + destruct (decide (p = here ++ [name])) as [->|Hp'].
      * rewrite Hold2, Hnew1. fold key. apply set_eq. intros x.
        rewrite elem_of_difference, elem_of_union, !elem_of_singleton.
        destruct (decide (x = key)) as [->|Hx].
        -- split; [by intros [_ ?]|]. intros Hin. by apply Hl in Hin.
        -- split; [by intros [[?|?] _]|]. intros Hin. split; [by left|done].
      * rewrite Hoth2 by done. by apply Hoth1.
Qed.

(** X3.  [cd] never closes or changes the selected dataset: whatever its
    outcome, the context has the same identifier and the same selection
    (dataset, cursors, writing flag) afterwards, so [getDataset] answers
    as before even when the context has moved to another directory. *)
Theorem cd_keeps_selection path create w w' r :
  cd path create w = (w', r) →
  Context.ID (c w') = Context.ID (c w) ∧
  Context.selected (c w') = Context.selected (c w) ∧
  (getDataset w').2 = (getDataset w).2.
Proof.
  intros Hcd. destruct (cd_context_fields _ _ _ _ _ Hcd) as [Hid Hsel].
  split; [done|]. split; [done|].
  unfold getDataset, bind, context. rewrite Hsel.
  by destruct (Context.selected (c w)).
Qed.


(** X5.  [mkdir] is not idempotent: after a successful [mkdir name], a
    second [mkdir name] from the same directory fails with the
    directory-exists error for the path the first one returned, and
    changes nothing. *)
Theorem mkdir_twice name w w1 p :
  mkdir name w = (w1, inr p) →
  mkdir name w1 = (w1, inl (DirectoryExistsError p)).
Proof.
  intros (Hname & -> & _ & (Hc & _) & Hx)%mkdir_ok.
  unfold mkdir. destruct (String.eqb_spec name EmptyString); [done|].
  unfold bind, context. rewrite exists_spec, Hc.
  by rewrite bool_decide_eq_true_2.
Qed.

(** ** More about [initContext] and [expireContext] *)

(** X6.  [initContext] never fails.  The new context is in the root with
    no dataset selected; its identifier is added to the listener set of
    the root session, no other listener set changes and no session
    disappears. *)
Theorem initContext_enters_root id w :
  ∃ w', initContext id w = (w', inr ()) ∧
        c w' = Context.mk id root root None ∧
        exists_in w' root ∧
        listeners_at w' root = listeners_at w root ∪ {[id]} ∧
        (∀ p, p ≠ root → listeners_at w' p = listeners_at w p) ∧
        (∀ p, exists_in w p → exists_in w' p).
Proof.
  unfold initContext. unfold bind at 1.
  destruct (get_spec root w) as (w1 & -> & He & [s Hs] & _).
  unfold bind, set_context, context. simpl.
  rewrite listeners_add_spec. simpl. rewrite Hs.
  eexists. split; [reflexivity|]. split; [done|].
  split; [|split; [|split]].
  - unfold exists_in. simpl. rewrite lookup_insert_eq. by eexists.
  - rewrite listeners_at_insert. rewrite decide_True by done. simpl.
    rewrite <- (extends_listeners_at _ _ root He).
    unfold listeners_at. by rewrite Hs.
  - intros p Hp. rewrite listeners_at_insert.
    rewrite decide_False by done. by apply extends_listeners_at.
  - intros p Hp. apply (extends_exists _ _ _ He) in Hp as [sp Hsp].
    unfold exists_in. simpl. rewrite lookup_insert.
    case_decide; by eexists.
Qed.

Lemma removeFromList_set_eq key (ls : gset N) :
  removeFromList key ls = ls ∖ {[key]}.
Proof.
  unfold removeFromList. simpl. case_bool_decide as Hin; [done|].
  apply set_eq. intros x. rewrite elem_of_difference, elem_of_singleton.
  split; [|tauto]. intros Hx. split; [done|]. by intros ->.
Qed.

Lemma removeFromList_offsets_eq key (ls : gmap N nat) :
  removeFromList key ls = delete key ls.
Proof.
  unfold removeFromList. simpl. case_bool_decide as Hin; [done|].
  symmetry. apply delete_id.
  destruct (ls !! key) eqn:E; [|done]. destruct Hin. by eexists.
Qed.

(** X7.  [expireContext] takes away the key and nothing else.  The same
    sessions exist afterwards, each listener set has lost at most the
    key, no signal is sent and the context dictionary is untouched;
    every dataset keeps its name, schema, rows, parameters and comments,
    and its three listener containers have lost at most the key. *)
Theorem expireContext_removes_only_key w :
  let key := contextKey (c w) in
  ∃ w', expireContext w = (w', inr ()) ∧
        c w' = c w ∧ outbox w' = outbox w ∧
        (∀ p, exists_in w' p ↔ exists_in w p) ∧
        (∀ p, listeners_at w' p = listeners_at w p ∖ {[key]}) ∧
        ∀ r d, dataset_in w r = Some d →
          ∃ d', dataset_in w' r = Some d' ∧
                Dataset.name d' = Dataset.name d ∧
                Dataset.independents d' = Dataset.independents d ∧
                Dataset.dependents d' = Dataset.dependents d ∧
                Dataset.rows d' = Dataset.rows d ∧
                Dataset.parameters d' = Dataset.parameters d ∧
                Dataset.comments d' = Dataset.comments d ∧
                Dataset.listeners d' = delete key (Dataset.listeners d) ∧
                Dataset.param_listeners d'
                  = Dataset.param_listeners d ∖ {[key]} ∧
                Dataset.comment_listeners d'
                  = delete key (Dataset.comment_listeners d).
Proof.
  intros key.
  destruct (expireContext_spec w) as (w' & Hex & Hc & Hob & Hst).
  fold key in Hst.
  exists w'. split; [done|]. split; [done|]. split; [done|].
  split; [|split].
  - intros p. unfold exists_in. rewrite Hst, lookup_fmap.
    destruct (session_store w !! p); simpl; split; intros [x Hx];
      by eexists.
  - intros p. unfold listeners_at. rewrite Hst, lookup_fmap.
    destruct (session_store w !! p) as [s|]; simpl.
    + apply removeFromList_set_eq.
    + apply set_eq. intros x. rewrite elem_of_difference.
      split; [by intros ?%not_elem_of_empty|by intros [?%not_elem_of_empty _]].
  - intros [p i] d. unfold dataset_in. simpl. rewrite Hst, lookup_fmap.
    destruct (session_store w !! p) as [s|]; [|done]. simpl.
    rewrite list_lookup_fmap. intros ->. simpl.
    eexists. split; [reflexivity|]. simpl.
    repeat (split; [done|]).
    split; [apply removeFromList_offsets_eq|].
    split; [apply removeFromList_set_eq|apply removeFromList_offsets_eq].
Qed.

Lemma expire_dataset_eq key d :
  expire_dataset key d =
  Dataset.mk (Dataset.name d) (Dataset.independents d)
    (Dataset.dependents d) (Dataset.rows d) (Dataset.parameters d)
    (Dataset.comments d) (delete key (Dataset.listeners d))
    (Dataset.param_listeners d ∖ {[key]})
    (delete key (Dataset.comment_listeners d)).
Proof.
  unfold expire_dataset, Dataset.with_comment_listeners,
    Dataset.with_param_listeners, Dataset.with_listeners. simpl.
  by rewrite !removeFromList_offsets_eq, removeFromList_set_eq.
Qed.

Lemma difference_twice (X Y : gset N) : X ∖ Y ∖ Y = X ∖ Y.
Proof. apply set_eq. intros x. rewrite !elem_of_difference. tauto. Qed.

Lemma expire_session_idemp key s :
  expire_session key (expire_session key s) = expire_session key s.
Proof.
  unfold expire_session, Session.with_datasets, Session.with_listeners.
  simpl. rewrite !removeFromList_set_eq, difference_twice. f_equal.
  rewrite <- list_fmap_compose. apply list_fmap_ext. intros i d _. simpl.
  rewrite !expire_dataset_eq. simpl.
  by rewrite !delete_delete_eq, difference_twice.
Qed.

(** X8.  Expiring twice is expiring once: a second [expireContext] for
    the same context leaves the world exactly as the first one did. *)
Theorem expireContext_idempotent w :
  run expireContext (run expireContext w) = run expireContext w.
Proof.
  unfold run.
  destruct (expireContext_spec w) as (w1 & -> & Hc1 & Hob1 & Hst1).
  cbn [fst].
  destruct (expireContext_spec w1) as (w2 & -> & Hc2 & Hob2 & Hst2).
  cbn [fst]. rewrite Hc1 in Hst2.
  destruct w1 as [st1 ob1 c1], w2 as [st2 ob2 c2]. simpl in *.
  subst. f_equal.
  rewrite <- map_fmap_compose. apply map_fmap_ext.
  intros p s _. apply expire_session_idemp.
Qed.

(** ** Reading a dataset *)

(** Runs the state-passing steps of a handler that are in plain sight. *)
Ltac run_handler :=
  cbv beta iota zeta delta
    [bind ret raise lift context set_context send selection set_selection
     getDataset getSession];
  cbn [c session_store outbox fst snd
       Context.selected Context.with_selected Context.with_filepos
       Context.with_commentpos Context.filepos Context.commentpos
       Context.writing Context.dataset Context.datasetObj Context.ID
       Context.path Context.session contextKey].

Lemma dataset_in_with_context w ob cx r :
  dataset_in (mkWorld (session_store w) ob cx) r = dataset_in w r.
Proof. done. Qed.

Lemma same_sessions_with_context w ob cx :
  same_sessions w (mkWorld (session_store w) ob cx).
Proof. by split. Qed.

Lemma get_handler_spec limit (startOver : bool) w o d :
  Context.selected (c w) = Some o →
  dataset_in w (Context.datasetObj o) = Some d →
  let start := if startOver then 0%nat else Context.filepos o in
  let r := Dataset.getData limit start d in
  ∃ w', get limit startOver w = (w', inr r.1) ∧
        c w' = Context.with_selected
                 (Some (Context.with_filepos r.2 o)) (c w) ∧
        dataset_in w' (Context.datasetObj o) =
          Some (Dataset.keepStreaming (contextKey (c w)) r.2 d) ∧
        outbox w' = outbox w ∧ same_sessions w w'.
Proof.
  intros Ho Hd start r.
  unfold get. repeat (run_handler; rewrite ?Ho).
  rewrite dataset_at_spec, dataset_in_with_context, Hd. run_handler.
  match goal with |- context [update_dataset ?ref ?f ?W] =>
    destruct (update_dataset_spec ref f W d)
      as (w3 & Hu & Hin3 & Hc3 & Hob3 & Hsame3);
      [by rewrite dataset_in_with_context|rewrite Hu]
  end.
  exists w3. split; [done|]. split; [by rewrite Hc3|].
  split; [done|]. split; [done|]. exact Hsame3.
Qed.

Lemma get_comments_handler_spec limit (startOver : bool) w o d :
  Context.selected (c w) = Some o →
  dataset_in w (Context.datasetObj o) = Some d →
  let start := if startOver then 0%nat else Context.commentpos o in
  let r := Dataset.getComments limit start d in
  ∃ w', get_comments limit startOver w = (w', inr r.1) ∧
        c w' = Context.with_selected
                 (Some (Context.with_commentpos r.2 o)) (c w) ∧
        dataset_in w' (Context.datasetObj o) =
          Some (Dataset.keepStreamingComments (contextKey (c w)) r.2 d) ∧
        outbox w' = outbox w ∧ same_sessions w w'.
Proof.
  intros Ho Hd start r.
  unfold get_comments. repeat (run_handler; rewrite ?Ho).
  rewrite dataset_at_spec, dataset_in_with_context, Hd. run_handler.
  match goal with |- context [update_dataset ?ref ?f ?W] =>
    destruct (update_dataset_spec ref f W d)
      as (w3 & Hu & Hin3 & Hc3 & Hob3 & Hsame3);
      [by rewrite dataset_in_with_context|rewrite Hu]
  end.
  exists w3. split; [done|]. split; [by rewrite Hc3|].
  split; [done|]. split; [done|]. exact Hsame3.
Qed.

(** X9.  The two cursors are independent and reading moves nothing else.
    Whatever its outcome, [get] leaves the context as it was except for
    ['filepos'], and [get_comments] leaves it as it was except for
    ['commentpos']; neither sends a signal, and the sessions and their
    listener sets are the same afterwards. *)
Theorem reading_moves_one_cursor limit (startOver : bool) w :
  (∀ w' r, get limit startOver w = (w', r) →
     (c w' = c w ∨
      ∃ o n, Context.selected (c w) = Some o ∧
             c w' = Context.with_selected
                      (Some (Context.with_filepos n o)) (c w)) ∧
     outbox w' = outbox w ∧ same_sessions w w') ∧
  (∀ w' r, get_comments limit startOver w = (w', r) →
     (c w' = c w ∨
      ∃ o n, Context.selected (c w) = Some o ∧
             c w' = Context.with_selected
                      (Some (Context.with_commentpos n o)) (c w)) ∧
     outbox w' = outbox w ∧ same_sessions w w').
Proof.
  split; intros w' r Hget.
  - destruct (Context.selected (c w)) as [o|] eqn:Ho.
    2: { revert Hget. unfold get. run_handler. rewrite Ho.
         intros [= <- <-]. split; [by left|]. by split. }
    destruct (dataset_in w (Context.datasetObj o)) as [d|] eqn:Hd.
    + destruct (get_handler_spec limit startOver w o d Ho Hd)
        as (w2 & Hg & Hc & _ & Hob & Hsame).
      rewrite Hg in Hget. injection Hget as <- <-.
      split; [right; by eexists _, _|by split].
    + revert Hget. unfold get. repeat (run_handler; rewrite ?Ho).
      rewrite dataset_at_spec, dataset_in_with_context, Hd.
      intros [= <- <-]. simpl.
      split; [right; by eexists _, _|].
      split; [done|apply same_sessions_with_context].
  - destruct (Context.selected (c w)) as [o|] eqn:Ho.
    2: { revert Hget. unfold get_comments. run_handler. rewrite Ho.
         intros [= <- <-]. split; [by left|]. by split. }
    destruct (dataset_in w (Context.datasetObj o)) as [d|] eqn:Hd.
    + destruct (get_comments_handler_spec limit startOver w o d Ho Hd)
        as (w2 & Hg & Hc & _ & Hob & Hsame).
      rewrite Hg in Hget. injection Hget as <- <-.
      split; [right; by eexists _, _|by split].
    + revert Hget. unfold get_comments. repeat (run_handler; rewrite ?Ho).
      rewrite dataset_at_spec, dataset_in_with_context, Hd.
      intros [= <- <-]. simpl.
      split; [right; by eexists _, _|].
      split; [done|apply same_sessions_with_context].
Qed.

(** X10.  After a successful [open], a [get] with no limit returns every
    row of the opened dataset, in order, and leaves the row cursor at the
    number of rows; a [get] with limit [n] instead returns the first [n];
    and a second unlimited [get] returns nothing. *)
Theorem open_then_get name w w1 r :
  open name w = (w1, inr r) →
  ∃ o d,
    Context.selected (c w1) = Some o ∧
    dataset_in w1 (Context.datasetObj o) = Some d ∧
    (∀ n, (get (Some n) false w1).2 = inr (take n (Dataset.rows d))) ∧
    ∃ w2 w3 o2,
      get None false w1 = (w2, inr (Dataset.rows d)) ∧
      Context.selected (c w2) = Some o2 ∧
      Context.filepos o2 = length (Dataset.rows d) ∧
      get None false w2 = (w3, inr []).
Proof.
  intros (s & i & d & _ & _ & _ & _ & Hc & Hin & _)%open_spec.
  eexists _, _. split; [by rewrite Hc|]. split; [exact Hin|].
  assert (Context.selected (c w1) =
          Some (Context.select (Dataset.name d) (Context.session (c w), i)
                               0 0 false)) as Ho by (by rewrite Hc).
  split.
  - intros n.
    destruct (get_handler_spec (Some n) false w1 _ _ Ho Hin)
      as (w2 & -> & _).
    done.
  - destruct (get_handler_spec None false w1 _ _ Ho Hin)
      as (w2 & Hg & Hc2 & Hin2 & _).
    simpl in Hg, Hc2, Hin2.
    assert (Context.selected (c w2) =
            Some (Context.select (Dataset.name d)
                    (Context.session (c w), i)
                    (length (Dataset.rows d)) 0 false)) as Ho2
      by (by rewrite Hc2).
    destruct (get_handler_spec None false w2 _ _ Ho2 Hin2)
      as (w3 & Hg3 & _).
    simpl in Hg3. rewrite drop_all in Hg3.
    by eexists w2, w3, _.
Qed.

(** ** Parameters and names *)

Lemma getParameter_present name d :
  name ∈ (Dataset.parameters d).*1 →
  ∃ v, Dataset.getParameter name true d = inr v.
Proof.
  intros ((k & v) & -> & Hin)%list_elem_of_fmap.
  unfold Dataset.getParameter.
  destruct (List.find _ (Dataset.parameters d)) as [kv|] eqn:Hfind.
  - by eexists.
  - apply list_elem_of_In in Hin.
    apply (List.find_none _ _ Hfind) in Hin. simpl in Hin.
    by rewrite String.eqb_refl in Hin.
Qed.

Lemma same_name_same_value (ps : list (string * Value)) k v1 v2 :
  NoDup ps.*1 → (k, v1) ∈ ps → (k, v2) ∈ ps → v1 = v2.
Proof.
  induction ps as [|[k' v'] ps IH]; simpl; intros Hnd H1 H2.
  - by apply elem_of_nil in H1.
  - apply NoDup_cons in Hnd as [Hk Hnd].
    apply elem_of_cons in H1 as [E1|H1];
      apply elem_of_cons in H2 as [E2|H2].
    + congruence.
    + injection E1 as -> ->. destruct Hk.
      apply list_elem_of_fmap. by exists (k', v2).
    + injection E2 as -> ->. destruct Hk.
      apply list_elem_of_fmap. by exists (k', v1).
    + by apply IH.
Qed.

Lemma getParameter_stored name v d :
  NoDup (Dataset.parameters d).*1 →
  (name, v) ∈ Dataset.parameters d →
  Dataset.getParameter name true d = inr v.
Proof.
  intros Hnd Hin. unfold Dataset.getParameter.
  destruct (List.find _ (Dataset.parameters d)) as [[k v']|] eqn:Hfind.
  - apply List.find_some in Hfind as [Hin' Heq]. simpl in Heq.
    apply String.eqb_eq in Heq as ->. apply list_elem_of_In in Hin'.
    simpl. f_equal. by eapply same_name_same_value.
  - apply list_elem_of_In in Hin.
    apply (List.find_none _ _ Hfind) in Hin. simpl in Hin.
    by rewrite String.eqb_refl in Hin.
Qed.

(** [collect] asks [getParameter] for each name in turn. *)
Lemma collect_spec d names w :
  (∀ n, n ∈ names → n ∈ (Dataset.parameters d).*1) →
  ∃ vs, collect d names w = (w, inr vs) ∧ vs.*1 = names ∧
        Forall (λ kv, Dataset.getParameter kv.1 true d = inr kv.2) vs.
Proof.
  induction names as [|n names IH]; intros Hall.
  - exists []. by repeat split.
  - destruct (getParameter_present n d) as [v Hv].
    { apply Hall. by left. }
    destruct IH as (vs & Hvs & Hnames & Hvals).
    { intros m Hm. apply Hall. by right. }
    exists ((n, v) :: vs). simpl. unfold bind at 1. rewrite Hv. simpl.
    unfold bind at 1. rewrite Hvs. rewrite <- Hnames.
    split; [done|]. split; [done|]. by constructor.
Qed.

Lemma looked_up_is_stored d (vs ps : list (string * Value)) :
  NoDup (Dataset.parameters d).*1 →
  (∀ kv, kv ∈ ps → kv ∈ Dataset.parameters d) →
  vs.*1 = ps.*1 →
  Forall (λ kv, Dataset.getParameter kv.1 true d = inr kv.2) vs →
  vs = ps.
Proof.
  intros Hnd. revert vs.
  induction ps as [|[k v] ps IH]; intros [|[k' v'] vs] Hsub Hn Hvals;
    try done.
  simpl in Hn. injection Hn as -> Hn.
  apply Forall_cons in Hvals as [Hv Hvals]. simpl in Hv.
  rewrite (getParameter_stored k v d Hnd) in Hv by (apply Hsub; by left).
  injection Hv as ->. f_equal. apply IH; [|done|done].
  intros kv Hkv. apply Hsub. by right.
Qed.

(** X11.  With a dataset selected, [get_parameters] never fails.  It
    returns nothing exactly when the dataset has no parameters, and
    otherwise one pair per parameter, with the names in the order of the
    dataset and with each name the value [getParameter] gives for it;
    when the stored names are distinct, as the dataset layer keeps them,
    that is exactly the stored list.  Either way the context's key is
    in the dataset's parameter-listener set afterwards, and the context
    and the stored parameters are unchanged. *)
Theorem get_parameters_shape w o d :
  Context.selected (c w) = Some o →
  dataset_in w (Context.datasetObj o) = Some d →
  ∃ w' res d',
    get_parameters w = (w', inr res) ∧
    (res = None ↔ Dataset.parameters d = []) ∧
    (∀ ps, res = Some ps →
       ps.*1 = (Dataset.parameters d).*1 ∧
       Forall (λ kv, Dataset.getParameter kv.1 true d = inr kv.2) ps ∧
       (NoDup (Dataset.parameters d).*1 → ps = Dataset.parameters d)) ∧
    c w' = c w ∧
    dataset_in w' (Context.datasetObj o) = Some d' ∧
    contextKey (c w) ∈ Dataset.param_listeners d' ∧
    Dataset.parameters d' = Dataset.parameters d.
Proof.
  intros Ho Hd.
  destruct (collect_spec d (Dataset.parameters d).*1 w)
    as (vs & Hvs & Hn & Hvals); [done|].
  destruct (update_dataset_spec (Context.datasetObj o)
              (listen_for_parameters (contextKey (c w))) w d Hd)
    as (w' & Hu & Hin & Hc & _).
  assert (get_parameters w =
          (w', inr (if bool_decide (length vs ≠ 0%nat) then Some vs
                    else None))) as Hget.
  { unfold get_parameters. run_handler. rewrite Ho. run_handler.
    rewrite dataset_at_spec, Hd. rewrite Hvs. rewrite Hu.
    by case_bool_decide. }
  eexists w', _, _. split; [exact Hget|].
  assert (length vs = length (Dataset.parameters d)) as Hlen.
  { rewrite <- (length_fmap fst vs), Hn. apply length_fmap. }
  split; [|split; [|split; [done|split; [exact Hin|split; [|done]]]]].
  - case_bool_decide as Hz.
    + split; [done|]. intros Hnil. rewrite Hnil in Hlen. by destruct Hz.
    + split; [|done]. intros _.
      destruct (Dataset.parameters d); [done|].
      simpl in Hlen. lia.
  - intros ps. case_bool_decide; [|done]. intros [= <-].
    split; [done|]. split; [done|]. intros Hnd.
    by apply (looked_up_is_stored d).
  - simpl. apply elem_of_union. right. by apply elem_of_singleton.
Qed.

(** The dataset layer keeps parameter names distinct, whichever way it
    treats a name it already has. *)
Lemma put_parameters_NoDup how ps batch ps' :
  NoDup ps.*1 → Dataset.put_parameters how ps batch = inr ps' →
  NoDup ps'.*1.
Proof.
  revert ps. induction batch as [|kv batch IH]; simpl; intros ps Hnd.
  - by intros [= <-].
  - unfold Dataset.put_parameter. case_bool_decide as Hin.
    + destruct how; [done|]. apply IH.
      rewrite <- list_fmap_compose.
      rewrite (list_fmap_ext _ fst ps); [done|].
      intros i [k v] _. simpl. by destruct (String.eqb k kv.1).
    + apply IH. rewrite fmap_app. apply NoDup_app. split; [done|].
      split; [|apply NoDup_singleton].
      intros k Hk ->%list_elem_of_singleton. done.
Qed.

Lemma add_parameter_fresh how name v w o d :
  Context.selected (c w) = Some o →
  dataset_in w (Context.datasetObj o) = Some d →
  name ∉ (Dataset.parameters d).*1 →
  ∃ w2 d2,
    add_parameter how name v w = (w2, inr ()) ∧
    outbox w2 = onNewParameter (Dataset.param_listeners d) :: outbox w ∧
    c w2 = c w ∧
    dataset_in w2 (Context.datasetObj o) = Some d2 ∧
    Dataset.parameters d2 = Dataset.parameters d ++ [(name, v)] ∧
    Dataset.param_listeners d2 = ∅.
Proof.
  intros Ho Hd Hfresh.
  assert (Dataset.addParameter how name v d =
          inr (Dataset.with_param_listeners ∅
                 (Dataset.with_parameters
                    (Dataset.parameters d ++ [(name, v)]) d),
               [onNewParameter (Dataset.param_listeners d)])) as Hadd.
  { unfold Dataset.addParameter, Dataset.addParameters. simpl.
    unfold Dataset.put_parameter. simpl.
    by rewrite bool_decide_eq_false_2. }
  destruct (set_dataset_spec (Context.datasetObj o)
              (Dataset.with_param_listeners ∅
                 (Dataset.with_parameters
                    (Dataset.parameters d ++ [(name, v)]) d)) w d Hd)
    as (w2 & Hset & Hin2 & Hc2 & Hob2 & _).
  eexists _, _. split.
  { unfold add_parameter. run_handler. rewrite Ho. run_handler.
    rewrite dataset_at_spec, Hd, Hadd. run_handler. rewrite Hset.
    reflexivity. }
  simpl. rewrite Hob2, Hc2. split; [done|]. split; [done|].
  split; [exact Hin2|]. done.
Qed.

(** X12.  Listening for parameters is one-shot.  [parameters] returns the
    names in order and registers the context's key.  The next
    [add_parameter] of a name the dataset does not have yet, from any
    context that has the dataset selected and whichever way the dataset
    layer treats repeated names, appends the parameter and sends the
    new-parameter signal to a set containing the key; the one after that
    sends it to nobody. *)
Theorem parameters_then_add_parameter w o d :
  Context.selected (c w) = Some o →
  dataset_in w (Context.datasetObj o) = Some d →
  ∃ w1,
    parameters w = (w1, inr (Dataset.parameters d).*1) ∧
    c w1 = c w ∧
    ∀ how cx o' name v,
      Context.selected cx = Some o' →
      Context.datasetObj o' = Context.datasetObj o →
      name ∉ (Dataset.parameters d).*1 →
      ∃ w2 to d2,
        add_parameter how name v (with_context cx w1) = (w2, inr ()) ∧
        outbox w2 = onNewParameter to :: outbox w1 ∧
        contextKey (c w) ∈ to ∧
        dataset_in w2 (Context.datasetObj o) = Some d2 ∧
        Dataset.parameters d2 = Dataset.parameters d ++ [(name, v)] ∧
        Dataset.param_listeners d2 = ∅ ∧
        ∀ how' name' v',
          name' ∉ (Dataset.parameters d2).*1 →
          ∃ w3, add_parameter how' name' v' w2 = (w3, inr ()) ∧
                outbox w3 = onNewParameter ∅ :: outbox w2.
Proof.
  intros Ho Hd.
  destruct (update_dataset_spec (Context.datasetObj o)
              (listen_for_parameters (contextKey (c w))) w d Hd)
    as (w1 & Hu & Hin & Hc & Hob & _).
  exists w1. split; [|split; [done|]].
  { unfold parameters. run_handler. rewrite Ho. run_handler.
    rewrite Hu. by rewrite dataset_at_spec, Hin. }
  intros how cx o' name v Ho' Href Hfresh.
  destruct (add_parameter_fresh how name v (with_context cx w1) o'
              (listen_for_parameters (contextKey (c w)) d))
    as (w2 & d2 & Hadd & Hob2 & Hc2 & Hin2 & Hps2 & Hl2);
    [done|by rewrite Href|done|].
  eexists w2, _, d2. split; [exact Hadd|]. split; [exact Hob2|].
  split; [apply elem_of_union; right; by apply elem_of_singleton|].
  rewrite <- Href. split; [exact Hin2|]. split; [exact Hps2|].
  split; [exact Hl2|].
  intros how' name' v' Hfresh'.
  destruct (add_parameter_fresh how' name' v' w2 o' d2)
    as (w3 & d3 & Hadd3 & Hob3 & _); [by rewrite Hc2|done|done|].
  exists w3. split; [exact Hadd3|]. by rewrite Hob3, Hl2.
Qed.

(** X13.  The name [new] and [open] return is the name of the selected
    dataset: right after either of them, [get_name] returns that same
    name and changes nothing, and the path they return is the context's
    path. *)
Theorem get_name_after_select :
  (∀ name ind dep w w' p nm,
     new name ind dep w = (w', inr (p, nm)) →
     get_name w' = (w', inr nm) ∧ p = Context.path (c w')) ∧
  (∀ name w w' p nm,
     open name w = (w', inr (p, nm)) →
     get_name w' = (w', inr nm) ∧ p = Context.path (c w')).
Proof.
  split.
  - intros name ind dep w w' p nm (s & _ & Hr & Hc & Hin & _)%new_spec.
    injection Hr as -> ->. split; [|by rewrite Hc].
    unfold get_name. run_handler. rewrite Hc. run_handler.
    by rewrite dataset_at_spec, Hin.
  - intros name w w' p nm (s & i & d & _ & _ & _ & Hr & Hc & Hin & _)%open_spec.
    injection Hr as -> ->. split; [|by rewrite Hc].
    unfold get_name. run_handler. rewrite Hc. run_handler.
    by rewrite dataset_at_spec, Hin.
Qed.

(** * DG535: selecting channels and building commands *)

Lemma index_Some key ls i :
  DG535.index key ls = Some i ↔
  ls !! i = Some key ∧ ∀ j, (j < i)%nat → ls !! j ≠ Some key.
Proof.
  revert i. induction ls as [|x ls IH]; intros i; simpl.
  - split; [done|]. by intros [? _].
  - destruct (String.eqb_spec x key) as [->|Hne].
    + split.
      * intros [= <-]. split; [done|]. intros j Hj. lia.
      * intros [Hi Hfirst]. destruct i as [|i]; [done|].
        destruct (Hfirst 0%nat); [lia|done].
    + destruct (DG535.index key ls) as [k|] eqn:Hk; simpl.
      * split.
        -- intros [= <-]. destruct (proj1 (IH k) eq_refl) as [Hi Hfirst].
           split; [done|]. intros [|j] Hj; simpl; [congruence|].
           apply Hfirst. lia.
        -- intros [Hi Hfirst]. destruct i as [|i]; [simpl in Hi; congruence|].
           assert (Some k = Some i) as [= ->]; [|done].
           apply (proj2 (IH i)). split; [done|].
           intros j Hj. apply (Hfirst (S j)). lia.
      * split; [done|]. intros [Hi Hfirst].
        destruct i as [|i]; [simpl in Hi; congruence|].
        assert (None = Some i) as [=]. apply (proj2 (IH i)).
        split; [done|]. intros j Hj. apply (Hfirst (S j)). lia.
Qed.

Lemma index_None key ls : DG535.index key ls = None ↔ key ∉ ls.
Proof.
  induction ls as [|x ls IH]; simpl.
  - split; [intros _; apply not_elem_of_nil|done].
  - destruct (String.eqb_spec x key) as [->|Hne].
    + split; [done|]. intros Hn. destruct Hn. by left.
    + rewrite not_elem_of_cons.
      destruct (DG535.index key ls); simpl.
      * split; [done|]. intros [_ Hn]. by apply IH in Hn.
      * split; [|done]. intros _. split; [congruence|]. by apply IH.
Qed.

(** X14.  [findString] looks a name up or checks a number.  For a name it
    returns the position of its first occurrence in the list, or raises
    [ValueError] when the name is not in the list; for a number it
    returns the number when it is a position of the list and the
    out-of-range exception otherwise; in both cases a returned value is
    a valid position.  [None] gives 0. *)
Theorem findString_positions ls :
  (∀ s, (∃ i, DG535.findString (DG535.KStr s) ls = inr (Z.of_nat i) ∧
              ls !! i = Some s ∧
              ∀ j, (j < i)%nat → ls !! j ≠ Some s) ∨
        (DG535.findString (DG535.KStr s) ls = inl DG535.ValueError ∧
         s ∉ ls)) ∧
  (∀ n, 0 ≤ n < Z.of_nat (length ls) →
        DG535.findString (DG535.KInt n) ls = inr n) ∧
  (∀ n, ¬ (0 ≤ n < Z.of_nat (length ls)) →
        DG535.findString (DG535.KInt n) ls = inl DG535.OutOfRange) ∧
  (∀ k i, k ≠ DG535.KNone → DG535.findString k ls = inr i →
          0 ≤ i < Z.of_nat (length ls)) ∧
  DG535.findString DG535.KNone ls = inr 0.
Proof.
  assert (∀ n, 0 ≤ n < Z.of_nat (length ls) →
               DG535.findString (DG535.KInt n) ls = inr n) as Hin.
  { intros n Hn. unfold DG535.findString.
    destruct (n <? 0) eqn:H1; [lia|].
    destruct (n >=? Z.of_nat (length ls)) eqn:H2; [lia|done]. }
  assert (∀ n, ¬ (0 ≤ n < Z.of_nat (length ls)) →
               DG535.findString (DG535.KInt n) ls = inl DG535.OutOfRange)
    as Hout.
  { intros n Hn. unfold DG535.findString.
    destruct (n <? 0) eqn:H1; [done|].
    destruct (n >=? Z.of_nat (length ls)) eqn:H2; [done|lia]. }
  split; [|split; [exact Hin|split; [exact Hout|split; [|done]]]].
  - intros s. unfold DG535.findString.
    destruct (DG535.index s ls) as [i|] eqn:Hi.
    + left. exists i. by apply index_Some in Hi as [? ?].
    + right. by apply index_None in Hi.
  - intros [|s|n] i Hk; [done| |].
    + unfold DG535.findString.
      destruct (DG535.index s ls) as [j|] eqn:Hj; [|done].
      intros [= <-]. apply index_Some in Hj as [Hj _].
      apply lookup_lt_Some in Hj. lia.
    + destruct (decide (0 ≤ n < Z.of_nat (length ls))) as [Hn|Hn].
      * rewrite (Hin n Hn). by intros [= <-].
      * by rewrite (Hout n Hn).
Qed.

Lemma findString_NoDup ls i s :
  NoDup ls → ls !! i = Some s →
  DG535.findString (DG535.KStr s) ls = inr (Z.of_nat i).
Proof.
  intros Hnd Hi. unfold DG535.findString.
  destruct (DG535.index s ls) as [j|] eqn:Hj.
  - apply index_Some in Hj as [Hj _].
    by rewrite (NoDup_lookup ls i j s Hnd Hi Hj).
  - apply index_None in Hj. destruct Hj. by eapply list_elem_of_lookup_2.
Qed.

(** X15.  A channel can be selected by name or by number, and the two
    agree: for every entry of the channel table, [select_channel] with
    its name and with its position both succeed, store that position
    in the context's channel, keep the delay anchor, and return the
    position. *)
Theorem select_channel_name_or_number i name cx :
  DG535.CHANNELS !! i = Some name →
  let selected := (DG535.mk (Z.of_nat i) (DG535.anchor cx), Z.of_nat i) in
  DG535.select_channel (DG535.KStr name) cx = inr selected ∧
  DG535.select_channel (DG535.KInt (Z.of_nat i)) cx = inr selected.
Proof.
  intros Hi selected. unfold DG535.select_channel. split.
  - rewrite (findString_NoDup DG535.CHANNELS i name); [done| |done].
    apply (bool_decide_unpack _). by vm_compute.
  - destruct (findString_positions DG535.CHANNELS) as (_ & Hin & _).
    rewrite Hin; [done|]. apply lookup_lt_Some in Hi. lia.
Qed.

(** X16.  A command for a single channel is the command word, the
    channel number and, only when there are parameters, a comma and the
    parameters.  A command for the channel [ALL] is the six commands for
    channels 2 to 7 joined by semicolons. *)
Theorem makeChannelCommand_shape cmd params :
  (∀ ch, ch ≠ DG535.ALL →
     DG535.makeChannelCommand cmd ch params DG535.all_channels =
     cmd +:+ " " +:+ pretty ch +:+
       (if String.eqb params EmptyString then EmptyString
        else "," +:+ params)) ∧
  DG535.makeChannelCommand cmd DG535.ALL params DG535.all_channels =
  String.concat ";"
    ((λ ch, DG535.makeChannelCommand cmd ch params DG535.all_channels)
       <$> DG535.all_channels).
Proof.
  split.
  - intros ch Hch. unfold DG535.makeChannelCommand.
    rewrite (proj2 (Z.eqb_neq ch DG535.ALL) Hch). simpl.
    by destruct (String.eqb_spec params EmptyString) as [->|].
  - unfold DG535.makeChannelCommand. rewrite Z.eqb_refl.
    unfold DG535.all_channels. simpl. reflexivity.
Qed.

(** * The further properties at work *)

Lemma cd_create_always_succeeds_witness :
  subscribed (started 7) ∧
  ∃ w', cd (Some (CdList ["a"; "b"])) true (started 7)
          = (w', inr (root ++ ["a"; "b"])) ∧
        subscribed w'.
Proof.
  split; [apply started_subscribed|].
  destruct (cd_create_always_succeeds ["a"; "b"] (started 7)
              (started_subscribed 7)) as (w' & Hcd & _ & _ & Hsub & _).
  assert (resolve (Context.path (c (started 7))) ["a"; "b"]
          = root ++ ["a"; "b"]) as Heq by (vm_compute; reflexivity).
  rewrite Heq in Hcd. exists w'. split; [exact Hcd|exact Hsub].
Defined.

Lemma cd_down_then_up_witness :
  ∃ w1 w2,
    cd (Some (CdStr "a")) true (started 7)
      = (w1, inr (Context.path (c (started 7)) ++ ["a"])) ∧
    cd (Some (CdNum 1)) false w1
      = (w2, inr (Context.path (c (started 7)))) ∧
    c w2 = c (started 7).
Proof.
  destruct (cd_down_then_up "a" (started 7)) as (w1 & w2 & H1 & H2 & H3 & _).
  - apply started_subscribed.
  - done.
  - intros H. vm_compute in H. discriminate.
  - exists w1, w2. split; [exact H1|]. split; [exact H2|exact H3].
Defined.

Lemma cd_keeps_selection_witness :
  Context.selected (c (run (cd (Some (CdList ["a"])) true) scan_created))
  = Context.selected (c scan_created).
Proof.
  refine (proj1 (proj2 (cd_keeps_selection (Some (CdList ["a"])) true
                          scan_created _ _ (surjective_pairing _)))).
Defined.


Lemma mkdir_twice_witness :
  mkdir "x" (started 7) = (made_x, inr (root ++ ["x"])) ∧
  mkdir "x" made_x = (made_x, inl (DirectoryExistsError (root ++ ["x"]))).
Proof.
  assert (mkdir "x" (started 7) = (made_x, inr (root ++ ["x"]))) as H
    by (vm_compute; reflexivity).
  split; [exact H|]. exact (mkdir_twice _ _ _ _ H).
Defined.

Lemma reading_moves_one_cursor_witness :
  outbox (run (get None false) filled_opened) = outbox filled_opened ∧
  outbox (run (get_comments (Some 1%nat) true) filled_opened)
    = outbox filled_opened.
Proof.
  split.
  - destruct (reading_moves_one_cursor None false filled_opened)
      as [Hget _].
    exact (proj1 (proj2 (Hget _ _ (surjective_pairing _)))).
  - destruct (reading_moves_one_cursor (Some 1%nat) true filled_opened)
      as [_ Hget].
    exact (proj1 (proj2 (Hget _ _ (surjective_pairing _)))).
Defined.

Lemma open_then_get_witness :
  open (ByIndex 1) (run (initContext 8) scan_filled)
    = (filled_opened, inr (root, "1 - scan")) ∧
  ∃ o d w2,
    Context.selected (c filled_opened) = Some o ∧
    dataset_in filled_opened (Context.datasetObj o) = Some d ∧
    get None false filled_opened = (w2, inr (Dataset.rows d)).
Proof.
  assert (open (ByIndex 1) (run (initContext 8) scan_filled)
          = (filled_opened, inr (root, "1 - scan"))) as H
    by (vm_compute; reflexivity).
  split; [exact H|].
  destruct (open_then_get _ _ _ _ H)
    as (o & d & Ho & Hd & _ & w2 & w3 & o2 & Hget & _).
  exists o, d, w2. split; [exact Ho|]. split; [exact Hd|exact Hget].
Defined.

Lemma get_parameters_shape_witness :
  (get_parameters scan_filled).2 = inr (Some [("gain", 3)]).
Proof.
  set (o := Context.select "1 - scan" (root, 0%nat) 0 0 true).
  set (d := Dataset.mk "1 - scan" [("time", "s")] [("signal", "ch1", "V")]
              [[0; 1]; [2; 3]] [("gain", 3)] [] ∅ ∅ ∅).
  destruct (get_parameters_shape scan_filled o d)
    as (w' & res & d' & Hget & Hnone & Hsome & _).
  - vm_compute. reflexivity.
  - vm_compute. reflexivity.
  - rewrite Hget. cbn [snd]. destruct res as [ps|].
    + destruct (Hsome ps eq_refl) as (_ & _ & Hstored).
      rewrite Hstored; [reflexivity|]. apply NoDup_singleton.
    + discriminate (proj1 Hnone eq_refl).
Defined.

Lemma parameters_then_add_parameter_witness :
  ∃ w1 w2 to,
    parameters filled_opened = (w1, inr ["gain"]) ∧
    add_parameter Dataset.FailAlreadyExists "offset" 1
      (with_context (c scan_filled) w1) = (w2, inr ()) ∧
    outbox w2 = onNewParameter to :: outbox w1 ∧
    8%N ∈ to.
Proof.
  set (o := Context.select "1 - scan" (root, 0%nat) 0 0 false).
  set (d := Dataset.mk "1 - scan" [("time", "s")] [("signal", "ch1", "V")]
              [[0; 1]; [2; 3]] [("gain", 3)] []
              (<[8%N := 0%nat]> ∅) ∅ (<[8%N := 0%nat]> ∅)).
  destruct (parameters_then_add_parameter filled_opened o d)
    as (w1 & Hpar & _ & Hadd).
  - vm_compute. reflexivity.
  - vm_compute. reflexivity.
  - destruct (Hadd Dataset.FailAlreadyExists (c scan_filled)
                (Context.select "1 - scan" (root, 0%nat) 0 0 true)
                "offset" 1)
      as (w2 & to & d2 & Hrun & Hout & Hto & _).
    + vm_compute. reflexivity.
    + reflexivity.
    + intros Hin. apply list_elem_of_singleton in Hin. discriminate.
    + assert (contextKey (c filled_opened) = 8%N) as Hkey
        by (vm_compute; reflexivity).
      rewrite Hkey in Hto.
      exists w1, w2, to. split; [exact Hpar|]. split; [exact Hrun|].
      split; [exact Hout|exact Hto].
Defined.

Lemma get_name_after_select_witness :
  get_name scan_created = (scan_created, inr "1 - scan") ∧
  get_name filled_opened = (filled_opened, inr "1 - scan").
Proof.
  destruct get_name_after_select as [Hnew Hopen]. split.
  - refine (proj1 (Hnew "scan" [("time", "s")] [("signal", "ch1", "V")]
                     (started 7) scan_created root "1 - scan" _)).
    vm_compute. reflexivity.
  - refine (proj1 (Hopen (ByIndex 1) (run (initContext 8) scan_filled)
                     filled_opened root "1 - scan" _)).
    vm_compute. reflexivity.
Defined.

Lemma findString_positions_witness :
  DG535.findString (DG535.KInt 3) DG535.CHANNELS = inr 3 ∧
  DG535.findString (DG535.KInt 9) DG535.CHANNELS = inl DG535.OutOfRange.
Proof.
  destruct (findString_positions DG535.CHANNELS) as (_ & Hin & Hout & _).
  split.
  - apply Hin. split; [lia|]. vm_compute. reflexivity.
  - apply Hout. intros [_ H]. vm_compute in H. discriminate.
Defined.

Lemma select_channel_name_or_number_witness :
  DG535.select_channel (DG535.KStr "A") DG535.initContext
    = inr (DG535.mk 2 1, 2) ∧
  DG535.select_channel (DG535.KInt 2) DG535.initContext
    = inr (DG535.mk 2 1, 2).
Proof.
  exact (select_channel_name_or_number 2 "A" DG535.initContext eq_refl).
Defined.

Lemma makeChannelCommand_shape_witness :
  DG535.makeChannelCommand "TZ" 2 "1" DG535.all_channels = "TZ 2,1".
Proof.
  destruct (makeChannelCommand_shape "TZ" "1") as [Hone _].
  rewrite Hone; [reflexivity|].
  intros H. vm_compute in H. discriminate.
Defined.
